(** * Motion editor: a shallow embedding of [motion_editor.cpp]

    The editor loads a YAML motion file, splits its top-level entries into
    frames and opaque blobs, edits joint positions of a frame found by name
    and writes the document back.  This development embeds the member
    functions of [MotionEditor] as functions over an explicit editor state
    and proves the properties the specification states about them. *)

From Stdlib Require Import Floats Ascii.
From Stdlib Require DecimalString DecimalZ DecimalPos.
From stdpp Require Import gmap strings list fin_maps.

Local Open Scope Z_scope.
Local Set Warnings "-register-all".
Local Set Warnings "-inexact-float".

(** ** YAML nodes *)

(** A defined [YAML::Node].  A mapping keeps its entries in insertion order
    and its keys are nodes themselves, as in yaml-cpp; an undefined
    ("zombie") node is the [None] of an [option Node]. *)
Inductive Node : Type :=
| YNull
| YScalar (s : string)
| YSeq (items : list Node)
| YMap (entries : list (Node * Node)).

Definition IsMap (n : Node) : bool :=
  match n with YMap _ => true | _ => false end.

Definition IsSequence (n : Node) : bool :=
  match n with YSeq _ => true | _ => false end.

(** [key_equals k key]: yaml-cpp compares a stored key with a [const char*]
    by decoding the key as a string, which only a scalar allows. *)
Definition key_equals (k : Node) (key : string) : bool :=
  match k with YScalar s => bool_decide (s = key) | _ => false end.

Fixpoint entries_get (entries : list (Node * Node)) (key : string) : option Node :=
  match entries with
  | [] => None
  | (k, v) :: rest => if key_equals k key then Some v else entries_get rest key
  end.

(** [n[key]] on a const node.  The source indexes mappings only
    ([hasKey] tests [IsMap] first, [parseFrameFromNode] receives frame
    candidates and guards every joint element with [IsMap]). *)
Definition node_get (n : Node) (key : string) : option Node :=
  match n with YMap entries => entries_get entries key | _ => None end.

Fixpoint entries_set (entries : list (Node * Node)) (key : string) (v : Node)
  : list (Node * Node) :=
  match entries with
  | [] => [(YScalar key, v)]
  | (k, w) :: rest =>
      if key_equals k key then (k, v) :: rest
      else (k, w) :: entries_set rest key v
  end.

(** [n[key] = v] on a node that is null (a fresh [YAML::Node]) or a mapping:
    a null node becomes a mapping, an existing key keeps its place, a new key
    goes last. *)
Definition node_set (n : Node) (key : string) (v : Node) : Node :=
  match n with
  | YMap entries => YMap (entries_set entries key v)
  | _ => YMap [(YScalar key, v)]
  end.

(** [seq.push_back(v)] on a sequence node. *)
Definition node_push_back (n : Node) (v : Node) : Node :=
  match n with
  | YSeq items => YSeq (items ++ [v])
  | _ => YSeq [v]
  end.

(** ** The libraries the editor is compiled against *)

(** yaml-cpp: conversions of a node to a C++ value ([as<T>()], [None] when
    the conversion throws), conversions of a value to a node (assignment to
    a node), the emitter ([operator<<]) and the parser ([YAML::Load]). *)
Class YamlCpp : Type := {
  as_int : Node → option Z;
  as_bool : Node → option bool;
  as_string : Node → option string;
  as_double : Node → option float;
  encode_int : Z → Node;
  encode_bool : bool → Node;
  encode_string : string → Node;
  encode_double : float → Node;
  Dump : Node → string;
  Load : string → option Node;
}.

(** The range of a C++ [int]. *)
Definition int_range (z : Z) : Prop := -2147483648 ≤ z ≤ 2147483647.

(** What a round trip through yaml-cpp preserves: emitted text parses back
    to the node it came from, and an encoded value converts back to itself. *)
Class YamlCppRoundTrip (Y : YamlCpp) : Prop := {
  Load_Dump : ∀ n, Load (Dump n) = Some n;
  as_int_range : ∀ n z, as_int n = Some z → int_range z;
  as_int_encode : ∀ z, int_range z → as_int (encode_int z) = Some z;
  as_bool_encode : ∀ b, as_bool (encode_bool b) = Some b;
  as_string_encode : ∀ s, as_string (encode_string s) = Some s;
  as_double_encode : ∀ d, as_double (encode_double d) = Some d;
}.

(** The C++ standard library: the order in which a [std::unordered_map]
    is iterated (unspecified, but every entry exactly once) and the capacity
    a [std::vector] of a given size takes when it has to grow. *)
Class StdLib : Type := {
  umap_order : gmap string float → list (string * float);
  umap_order_perm : ∀ m, umap_order m ≡ₚ map_to_list m;
  vector_grow : nat → nat;
}.

(** ** Vectors *)

(** A [std::vector]: its elements and the capacity of its buffer. *)
Record vector (A : Type) : Type := Vector {
  data : list A;
  capacity : nat;
}.
Arguments Vector {A} _ _.
Arguments data {A} _.
Arguments capacity {A} _.

Definition vector_empty {A} : vector A := Vector [] 0.

(** [needs_realloc v]: no spare capacity is left, so [push_back] moves the
    elements to a new buffer and every pointer into the old one dangles. *)
Definition needs_realloc {A} (v : vector A) : bool :=
  bool_decide (capacity v ≤ length (data v))%nat.

Definition push_back `{StdLib} {A} (v : vector A) (x : A) : vector A :=
  if needs_realloc v
  then Vector (data v ++ [x]) (vector_grow (length (data v)))
  else Vector (data v ++ [x]) (capacity v).

(** ** The data model of [motion_editor.hpp] *)

Record DxlValue : Type := mkDxlValue {
  id : Z;
  position : float;
}.

Record Frame : Type := mkFrame {
  time : Z;
  delay : Z;
  repeat : Z;
  name : string;
  selected : bool;
  dxl : vector DxlValue;
}.

Record MetaBlob : Type := mkMetaBlob {
  rawYaml : string;
}.

Record MotionEditor : Type := mkMotionEditor {
  meta_blobs_ : list MetaBlob;
  frames_ : list Frame;
  joint_to_id_ : gmap string Z;
}.

(** An exception leaving a member function. *)
Inductive exception : Type :=
| runtime_error (what : string)
| yaml_exception.

(** The outcome of a member function on the editor: it returns, it throws
    (the editor keeps what was done before the throw), or its behaviour is
    undefined. *)
Inductive result : Type :=
| Returns (me : MotionEditor)
| Throws (e : exception) (me : MotionEditor)
| UndefinedBehaviour.

(** A computation that yields a value or throws. *)
Inductive try (A : Type) : Type :=
| Value (a : A)
| Thrown (e : exception).
Arguments Value {A} _.
Arguments Thrown {A} _.

#[global] Instance try_bind : MBind try := λ A B k m,
  match m with Value a => k a | Thrown e => Thrown e end.

(** [v.as<T>()] on a node that may be undefined: an undefined node and a
    failed conversion both throw inside yaml-cpp. *)
Definition node_as {A} (conv : Node → option A) (v : option Node) : try A :=
  match v with
  | Some n => match conv n with Some a => Value a | None => Thrown yaml_exception end
  | None => Thrown yaml_exception
  end.

(** [if (n[key]) f.member = n[key].as<T>();]: a missing key leaves the
    member at its initialiser. *)
Definition optional_field {A} (conv : Node → option A) (n : Node) (key : string)
    (initial : A) : try A :=
  match node_get n key with
  | None => Value initial
  | Some v => node_as conv (Some v)
  end.

Section Editor.
Context `{Y : YamlCpp} `{L : StdLib}.

(** ** Loading *)

Definition hasKey (n : Node) (key : string) : bool :=
  IsMap n && bool_decide (is_Some (node_get n key)).

Definition appearsFrame (item : Node) : bool :=
  hasKey item "dxl" && hasKey item "time" && hasKey item "name".

(** The loop of [parseFrameFromNode] over the elements of [n["dxl"]]. *)
Fixpoint parse_dxl (elems : list Node) (acc : vector DxlValue) : try (vector DxlValue) :=
  match elems with
  | [] => Value acc
  | elem :: rest =>
      if IsMap elem then
        i ← node_as as_int (node_get elem "id");
        p ← node_as as_double (node_get elem "position");
        parse_dxl rest (push_back acc (mkDxlValue i p))
      else parse_dxl rest acc
  end.

Definition parseFrameFromNode (n : Node) : try Frame :=
  f_time ← optional_field as_int n "time" 0;
  f_delay ← optional_field as_int n "delay" 0;
  f_repeat ← optional_field as_int n "repeat" 0;
  f_name ← optional_field as_string n "name" "";
  f_selected ← optional_field as_bool n "selected" false;
  match node_get n "dxl" with
  | Some (YSeq elems) =>
      f_dxl ← parse_dxl elems vector_empty;
      Value (mkFrame f_time f_delay f_repeat f_name f_selected f_dxl)
  | _ => Thrown (runtime_error ("MotionEditor: frame missing 'dxl' sequence: " +:+ f_name))
  end.

(** The files the editor reads and writes: the text stored under each path,
    and the paths that cannot be opened for writing. *)
Record FileSystem : Type := mkFileSystem {
  contents : gmap string string;
  read_only : gset string;
}.

(** [YAML::LoadFile(path)]: throws when the file cannot be read or parsed. *)
Definition LoadFile (fs : FileSystem) (path : string) : try Node :=
  match contents fs !! path with
  | None => Thrown yaml_exception
  | Some text =>
      match Load text with
      | None => Thrown yaml_exception
      | Some root => Value root
      end
  end.

Definition push_frame (f : Frame) (me : MotionEditor) : MotionEditor :=
  mkMotionEditor (meta_blobs_ me) (frames_ me ++ [f]) (joint_to_id_ me).

Definition push_meta (mb : MetaBlob) (me : MotionEditor) : MotionEditor :=
  mkMotionEditor (meta_blobs_ me ++ [mb]) (frames_ me) (joint_to_id_ me).

(** The loop of [loadFromFile] over the entries of the root sequence; it
    appends to the members as it goes. *)
Fixpoint load_items (items : list Node) (me : MotionEditor) : result :=
  match items with
  | [] => Returns me
  | item :: rest =>
      if appearsFrame item then
        match parseFrameFromNode item with
        | Value f => load_items rest (push_frame f me)
        | Thrown e => Throws e me
        end
      else load_items rest (push_meta (mkMetaBlob (Dump item)) me)
  end.

Definition clear (me : MotionEditor) : MotionEditor :=
  mkMotionEditor [] [] (joint_to_id_ me).

(** [loadFromFile]: a node that [LoadFile] returns is always defined, so the
    test [!root] never fires and the guard is [!root.IsSequence()]. *)
Definition loadFromFile (fs : FileSystem) (path : string) (me : MotionEditor) : result :=
  let me := clear me in
  match LoadFile fs path with
  | Thrown e => Throws e me
  | Value root =>
      match root with
      | YSeq items => load_items items me
      | _ => Throws (runtime_error "MotionEditor: top-level must be a YAML sequence.") me
      end
  end.

(** ** Saving *)

Definition joint_node (dv : DxlValue) : Node :=
  let one := YNull in
  let one := node_set one "id" (encode_int (id dv)) in
  let one := node_set one "position" (encode_double (position dv)) in
  one.

Definition frame_node (f : Frame) : Node :=
  let node := YNull in
  let node := node_set node "time" (encode_int (time f)) in
  let node := node_set node "delay" (encode_int (delay f)) in
  let node := node_set node "repeat" (encode_int (repeat f)) in
  let node := node_set node "name" (encode_string (name f)) in
  let node := node_set node "selected" (encode_bool (selected f)) in
  let dxl_node :=
    foldl (λ dxl_node dv, node_push_back dxl_node (joint_node dv)) (YSeq []) (data (dxl f)) in
  node_set node "dxl" dxl_node.

(** The first loop of [buildYamlFromAll]: every blob is parsed again. *)
Fixpoint push_metas (metas : list MetaBlob) (out : Node) : try Node :=
  match metas with
  | [] => Value out
  | mb :: rest =>
      match Load (rawYaml mb) with
      | None => Thrown yaml_exception
      | Some m => push_metas rest (node_push_back out m)
      end
  end.

Definition buildYamlFromAll (metas : list MetaBlob) (frames : list Frame) : try Node :=
  out ← push_metas metas (YSeq []);
  Value (foldl (λ out f, node_push_back out (frame_node f)) out frames).

(** [saveToFile] is a const member: it changes the file system only. *)
Definition saveToFile (me : MotionEditor) (path : string) (fs : FileSystem)
  : try FileSystem :=
  out ← buildYamlFromAll (meta_blobs_ me) (frames_ me);
  if bool_decide (path ∈ read_only fs)
  then Thrown (runtime_error ("MotionEditor: cannot open file to write: " +:+ path))
  else Value (mkFileSystem (<[path := Dump out]> (contents fs)) (read_only fs)).

(** ** Editing *)

(** [findFrameIndexByName]: the index of the first frame of that name, or -1. *)
Fixpoint find_from (i : Z) (frames : list Frame) (step_name : string) : Z :=
  match frames with
  | [] => -1
  | f :: rest =>
      if bool_decide (name f = step_name) then i
      else find_from (i + 1) rest step_name
  end.

Definition findFrameIndexByName (me : MotionEditor) (step_name : string) : Z :=
  find_from 0 (frames_ me) step_name.

(** A [DxlValue*] into [f.dxl]: the buffer it points into (buffers are
    numbered in the order the vector allocates them) and the element's index. *)
Record pointer : Type := mkPointer {
  buffer : nat;
  index : nat;
}.

(** What the loop of [editJoints] works on: the vector [f.dxl] of the frame,
    the number of the buffer the vector lives in, and the local [id2dxl]. *)
Record edit_state : Type := mkEdit {
  e_dxl : vector DxlValue;
  e_buffer : nat;
  id2dxl : gmap Z pointer;
}.

(** [for (auto& dv : f.dxl) id2dxl[dv.id] = &dv;], from index [i] on. *)
Fixpoint index_dxl (dvs : list DxlValue) (i : nat) (m : gmap Z pointer) : gmap Z pointer :=
  match dvs with
  | [] => m
  | dv :: rest => index_dxl rest (S i) (<[id dv := mkPointer 0 i]> m)
  end.

Inductive edit_outcome : Type :=
| Applied (s : edit_state)
| Raised (e : exception) (s : edit_state)
| Dangling.

Definition set_position (q : float) (dv : DxlValue) : DxlValue :=
  mkDxlValue (id dv) q.

(** One iteration of the loop over [joint_positions_rad].  A write through
    a pointer into a buffer the vector has left is undefined behaviour. *)
Definition apply_update (joint_to_id : gmap string Z) (strict : bool)
    (s : edit_state) (u : string * float) : edit_outcome :=
  let '(jname, qrad) := u in
  match joint_to_id !! jname with
  | None =>
      if strict then Raised (runtime_error ("Unknown joint name: " +:+ jname)) s
      else Applied s
  | Some i =>
      match id2dxl s !! i with
      | None =>
          let v := e_dxl s in
          let buf := if needs_realloc v then S (e_buffer s) else e_buffer s in
          Applied (mkEdit (push_back v (mkDxlValue i qrad)) buf
                          (<[i := mkPointer buf (length (data v))]> (id2dxl s)))
      | Some p =>
          if bool_decide (buffer p = e_buffer s) then
            let v := e_dxl s in
            Applied (mkEdit (Vector (alter (set_position qrad) (index p) (data v)) (capacity v))
                            (e_buffer s) (id2dxl s))
          else Dangling
      end
  end.

Fixpoint apply_updates (joint_to_id : gmap string Z) (strict : bool)
    (updates : list (string * float)) (s : edit_state) : edit_outcome :=
  match updates with
  | [] => Applied s
  | u :: rest =>
      match apply_update joint_to_id strict s u with
      | Applied s' => apply_updates joint_to_id strict rest s'
      | o => o
      end
  end.

Definition with_dxl (f : Frame) (v : vector DxlValue) : Frame :=
  mkFrame (time f) (delay f) (repeat f) (name f) (selected f) v.

(** [frames_[idx] = f], the effect of editing through [Frame& f = frames_[idx]]. *)
Definition store_frame (idx : nat) (f : Frame) (me : MotionEditor) : MotionEditor :=
  mkMotionEditor (meta_blobs_ me) (<[idx := f]> (frames_ me)) (joint_to_id_ me).

(** The end of [editJoints]: the edits were made in place, so the frame
    keeps them whether the loop finished or threw. *)
Definition finish_edit (idx : nat) (f : Frame) (me : MotionEditor) (o : edit_outcome)
  : result :=
  match o with
  | Applied s' => Returns (store_frame idx (with_dxl f (e_dxl s')) me)
  | Raised e s' => Throws e (store_frame idx (with_dxl f (e_dxl s')) me)
  | Dangling => UndefinedBehaviour
  end.

(** The body of [editJoints], given the entries of [joint_positions_rad] in
    the order the range-for visits them. *)
Definition edit_in_order (step_name : string) (updates : list (string * float))
    (strict : bool) (me : MotionEditor) : result :=
  let idx := findFrameIndexByName me step_name in
  if bool_decide (idx < 0) then
    Throws (runtime_error ("MotionEditor: step not found: " +:+ step_name)) me
  else
    match frames_ me !! Z.to_nat idx with
    | None => UndefinedBehaviour
    | Some f =>
        let s := mkEdit (dxl f) 0 (index_dxl (data (dxl f)) 0 ∅) in
        finish_edit (Z.to_nat idx) f me (apply_updates (joint_to_id_ me) strict updates s)
    end.

Definition editJoints (step_name : string) (joint_positions_rad : gmap string float)
    (strict : bool) (me : MotionEditor) : result :=
  edit_in_order step_name (umap_order joint_positions_rad) strict me.

(** The lambda [put] of [editFourArmJoints]. *)
Definition put (joint_positions_rad sub : gmap string float) (j : string)
  : gmap string float :=
  match joint_positions_rad !! j with
  | Some q => <[j := q]> sub
  | None => sub
  end.

Definition editFourArmJoints (step_name : string) (joint_positions_rad : gmap string float)
    (me : MotionEditor) : result :=
  let sub := ∅ in
  let sub := put joint_positions_rad sub "rotate_torso" in
  let sub := put joint_positions_rad sub "rotate_0" in
  let sub := put joint_positions_rad sub "rotate_1" in
  let sub := put joint_positions_rad sub "rotate_2" in
  let sub := put joint_positions_rad sub "rotate_3" in
  let sub := put joint_positions_rad sub "rotate_5" in
  if bool_decide (sub = ∅) then Returns me
  else editJoints step_name sub false me.

End Editor.

(** The mapping the default constructor installs. *)
Definition default_joint_to_id : gmap string Z :=
  <["rotate_torso" := 22]> (<["rotate_0" := 0]> (<["rotate_1" := 1]>
  (<["rotate_2" := 2]> (<["rotate_3" := 3]> (<["rotate_5" := 5]> ∅))))).

Definition MotionEditor_default : MotionEditor :=
  mkMotionEditor [] [] default_joint_to_id.

(** The constructor that takes the mapping from the caller. *)
Definition MotionEditor_with (joint_to_id : gmap string Z) : MotionEditor :=
  mkMotionEditor [] [] joint_to_id.

(** ** Accessors *)

Definition jointToId (me : MotionEditor) : gmap string Z := joint_to_id_ me.

Definition setJointToId (m : gmap string Z) (me : MotionEditor) : MotionEditor :=
  mkMotionEditor (meta_blobs_ me) (frames_ me) m.

(** [listStepNames]: the loop pushes the name of every frame. *)
Definition listStepNames (me : MotionEditor) : list string :=
  foldl (λ names f, names ++ [name f]) [] (frames_ me).

(** What [getFrame] yields: [std::nullopt], a copy of a frame, or nothing
    defined, when [frames_[idx]] reads past the end of the vector. *)
Inductive lookup_result : Type :=
| nullopt
| has_value (f : Frame)
| out_of_range.

(** The copy of a vector: the same elements, in a buffer of its own that
    holds just them. *)
Definition copy_vector {A} (v : vector A) : vector A :=
  Vector (data v) (length (data v)).

Definition copy_frame (f : Frame) : Frame :=
  mkFrame (time f) (delay f) (repeat f) (name f) (selected f) (copy_vector (dxl f)).

Definition getFrame (me : MotionEditor) (step_name : string) : lookup_result :=
  let idx := findFrameIndexByName me step_name in
  if bool_decide (idx < 0) then nullopt
  else
    match frames_ me !! Z.to_nat idx with
    | Some f => has_value (copy_frame f)
    | None => out_of_range
    end.

(** ** The test program *)

Section Caller.
Context `{Y : YamlCpp} `{L : StdLib}.

(** How [main] ends: it returns an exit code and leaves the files as given,
    or its behaviour is undefined. *)
Inductive exit : Type :=
| Exit (code : Z) (fs : FileSystem)
| Undefined.

(** The updates [main] makes to the frame ["2"]. *)
Definition q2 : gmap string float :=
  <["rotate_7" := (-0.11)%float]> (<["rotate_1" := 0.33%float]> ∅).

(** [main] of [test.cpp] on the motion file at [yaml_path]; what it prints
    is left out.  Every exception is caught and turned into exit code 1. *)
Definition main (yaml_path : string) (fs : FileSystem) : exit :=
  let me := MotionEditor_default in
  match loadFromFile fs yaml_path me with
  | UndefinedBehaviour => Undefined
  | Throws _ _ => Exit 1 fs
  | Returns me =>
      let stepNames := listStepNames me in
      let printed :=
        match stepNames with
        | [] => nullopt
        | front :: _ => getFrame me front
        end in
      match printed with
      | out_of_range => Undefined
      | _ =>
          match editJoints "2" q2 false me with
          | UndefinedBehaviour => Undefined
          | Throws _ _ => Exit 1 fs
          | Returns me =>
              match saveToFile me yaml_path fs with
              | Thrown _ => Exit 1 fs
              | Value fs' => Exit 0 fs'
              end
          end
      end
  end.

End Caller.

(** ** A reference model of the libraries

    An executable instance of the two interfaces: flow-style YAML text in
    which every scalar is double-quoted, decimal integers, and the growth
    policy of GNU libstdc++. *)
Module Reference.

Definition dquote : ascii := "034"%char.
Definition backslash : ascii := "\"%char.

Fixpoint escape (s : list ascii) : list ascii :=
  match s with
  | [] => []
  | c :: r =>
      if bool_decide (c = dquote ∨ c = backslash) then backslash :: c :: escape r
      else c :: escape r
  end.

Fixpoint emit (n : Node) : list ascii :=
  match n with
  | YNull => ["~"%char]
  | YScalar s => dquote :: escape (String.list_ascii_of_string s) ++ [dquote]
  | YSeq items =>
      "["%char ::
      (fix emit_items (l : list Node) : list ascii :=
         match l with
         | [] => ["]"%char]
         | x :: l' => emit x ++ ","%char :: emit_items l'
         end) items
  | YMap entries =>
      "{"%char ::
      (fix emit_entries (l : list (Node * Node)) : list ascii :=
         match l with
         | [] => ["}"%char]
         | (k, v) :: l' => emit k ++ ":"%char :: emit v ++ ","%char :: emit_entries l'
         end) entries
  end.

Fixpoint read_scalar (s : list ascii) : option (list ascii * list ascii) :=
  match s with
  | [] => None
  | c :: r =>
      if bool_decide (c = dquote) then Some ([], r)
      else if bool_decide (c = backslash) then
        match r with
        | [] => None
        | d :: r' => '(x, rest) ← read_scalar r'; Some (d :: x, rest)
        end
      else '(x, rest) ← read_scalar r; Some (c :: x, rest)
  end.

Fixpoint read_node (fuel : nat) (s : list ascii) : option (Node * list ascii) :=
  match fuel with
  | O => None
  | S fuel =>
      match s with
      | [] => None
      | c :: r =>
          if bool_decide (c = "~"%char) then Some (YNull, r)
          else if bool_decide (c = dquote) then
            '(x, rest) ← read_scalar r; Some (YScalar (String.string_of_list_ascii x), rest)
          else if bool_decide (c = "["%char) then
            '(l, rest) ← read_items fuel r; Some (YSeq l, rest)
          else if bool_decide (c = "{"%char) then
            '(l, rest) ← read_entries fuel r; Some (YMap l, rest)
          else None
      end
  end
with read_items (fuel : nat) (s : list ascii) : option (list Node * list ascii) :=
  match fuel with
  | O => None
  | S fuel =>
      match s with
      | [] => None
      | c :: r =>
          if bool_decide (c = "]"%char) then Some ([], r)
          else
            '(x, r1) ← read_node fuel s;
            match r1 with
            | d :: r2 =>
                if bool_decide (d = ","%char) then
                  '(l, rest) ← read_items fuel r2; Some (x :: l, rest)
                else None
            | [] => None
            end
      end
  end
with read_entries (fuel : nat) (s : list ascii) : option (list (Node * Node) * list ascii) :=
  match fuel with
  | O => None
  | S fuel =>
      match s with
      | [] => None
      | c :: r =>
          if bool_decide (c = "}"%char) then Some ([], r)
          else
            '(k, r1) ← read_node fuel s;
            match r1 with
            | d :: r2 =>
                if bool_decide (d = ":"%char) then
                  '(v, r3) ← read_node fuel r2;
                  match r3 with
                  | d' :: r4 =>
                      if bool_decide (d' = ","%char) then
                        '(l, rest) ← read_entries fuel r4; Some ((k, v) :: l, rest)
                      else None
                  | [] => None
                  end
                else None
            | [] => None
            end
      end
  end.

Definition ref_Dump (n : Node) : string := String.string_of_list_ascii (emit n).

Definition ref_Load (text : string) : option Node :=
  let s := String.list_ascii_of_string text in
  match read_node (S (length s)) s with
  | Some (n, []) => Some n
  | _ => None
  end.

#[global] Instance int_range_dec z : Decision (int_range z).
Proof. unfold int_range. apply _. Defined.

Definition ref_as_int (n : Node) : option Z :=
  match n with
  | YScalar s =>
      d ← DecimalString.NilZero.int_of_string s;
      let z := Z.of_int d in
      if bool_decide (int_range z) then Some z else None
  | _ => None
  end.

Definition ref_encode_int (z : Z) : Node :=
  YScalar (DecimalString.NilZero.string_of_int (Z.to_int z)).

Definition ref_as_bool (n : Node) : option bool :=
  match n with
  | YScalar s =>
      if bool_decide (s = "true") then Some true
      else if bool_decide (s = "false") then Some false
      else None
  | _ => None
  end.

Definition ref_encode_bool (b : bool) : Node :=
  YScalar (if b then "true" else "false").

Definition ref_as_string (n : Node) : option string :=
  match n with YScalar s => Some s | _ => None end.

(** A double is written exactly, as [<sign><mantissa>p<exponent>] for the
    value [mantissa * 2 ^ exponent], or as one of [0], [-0], [.inf],
    [-.inf], [.nan]. *)
Definition float_text (d : float) : string :=
  match Prim2SF d with
  | S754_zero false => "0"
  | S754_zero true => "-0"
  | S754_infinity false => ".inf"
  | S754_infinity true => "-.inf"
  | S754_nan => ".nan"
  | S754_finite sgn m e =>
      (if sgn then "-" else "") +:+
      DecimalString.NilEmpty.string_of_uint (Pos.to_uint m) +:+ "p" +:+
      DecimalString.NilZero.string_of_int (Z.to_int e)
  end.

Fixpoint split_p (s : string) : option (string * string) :=
  match s with
  | EmptyString => None
  | String c r =>
      if bool_decide (c = "p"%char) then Some (EmptyString, r)
      else '(a, b) ← split_p r; Some (String c a, b)
  end.

Definition read_finite (sgn : bool) (ms es : string) : option spec_float :=
  m ← DecimalString.NilEmpty.uint_of_string ms;
  e ← DecimalString.NilZero.int_of_string es;
  match Pos.of_uint m with
  | Npos p => Some (S754_finite sgn p (Z.of_int e))
  | N0 => None
  end.

Definition text_float (s : string) : option float :=
  match split_p s with
  | Some (String c ms, es) =>
      SF2Prim <$>
        (if bool_decide (c = "-"%char) then read_finite true ms es
         else read_finite false (String c ms) es)
  | Some (EmptyString, _) => None
  | None =>
      if bool_decide (s = "0") then Some PrimFloat.zero
      else if bool_decide (s = "-0") then Some PrimFloat.neg_zero
      else if bool_decide (s = ".inf") then Some PrimFloat.infinity
      else if bool_decide (s = "-.inf") then Some PrimFloat.neg_infinity
      else if bool_decide (s = ".nan") then Some PrimFloat.nan
      else None
  end.

Definition ref_as_double (n : Node) : option float :=
  match n with YScalar s => text_float s | _ => None end.

Definition ref_encode_double (d : float) : Node := YScalar (float_text d).

#[global] Instance ref_yaml : YamlCpp := {|
  as_int := ref_as_int;
  as_bool := ref_as_bool;
  as_string := ref_as_string;
  as_double := ref_as_double;
  encode_int := ref_encode_int;
  encode_bool := ref_encode_bool;
  encode_string := YScalar;
  encode_double := ref_encode_double;
  Dump := ref_Dump;
  Load := ref_Load;
|}.

(** libstdc++ doubles the capacity of a vector that is full (a first element
    gets capacity 1); entries are visited in the order [map_to_list] gives. *)
#[global] Instance ref_stdlib : StdLib := {|
  umap_order := map_to_list;
  umap_order_perm := λ m, Permutation_refl (map_to_list m);
  vector_grow := λ n, (n + Nat.max n 1)%nat;
|}.

(** The two inner loops of [emit], by name. *)
Definition emit_items : list Node → list ascii :=
  fix emit_items (l : list Node) : list ascii :=
    match l with
    | [] => ["]"%char]
    | x :: l' => emit x ++ ","%char :: emit_items l'
    end.

Definition emit_entries : list (Node * Node) → list ascii :=
  fix emit_entries (l : list (Node * Node)) : list ascii :=
    match l with
    | [] => ["}"%char]
    | (k, v) :: l' => emit k ++ ":"%char :: emit v ++ ","%char :: emit_entries l'
    end.

End Reference.

(** * The vocabulary of the specification

    The predicates and functions in which the properties below are stated,
    worded after the specification. *)

Section Vocabulary.
Context `{Y : YamlCpp} `{L : StdLib}.

(** A mapping contains [key] when one of its entries has the scalar [key]
    as its key, whatever the value. *)
Definition contains_key (entries : list (Node * Node)) (key : string) : Prop :=
  ∃ v, (YScalar key, v) ∈ entries.

(** The shape of a frame: a mapping with the keys [dxl], [time] and [name]. *)
Definition frame_shaped (item : Node) : Prop :=
  ∃ entries, item = YMap entries ∧
    contains_key entries "dxl" ∧ contains_key entries "time" ∧
    contains_key entries "name".

(** The entries of a root sequence that are stored as blobs, and those that
    are parsed as frames. *)
Definition blob_entries (items : list Node) : list Node :=
  filter (λ item, ¬ Is_true (appearsFrame item)) items.

Definition frame_entries (items : list Node) : list Node :=
  filter (λ item, Is_true (appearsFrame item)) items.

Definition blob_of (item : Node) : MetaBlob := mkMetaBlob (Dump item).

(** The value a member takes from an optional key: its initialiser when the
    key is missing, the converted value of the key otherwise. *)
Definition field_value {A} (conv : Node → option A) (n : Node) (key : string)
    (initial a : A) : Prop :=
  match node_get n key with
  | None => a = initial
  | Some v => conv v = Some a
  end.

(** A joint element with an integer [id] and a real [position]. *)
Definition joint_of (elem : Node) (dv : DxlValue) : Prop :=
  node_get elem "id" ≫= as_int = Some (id dv) ∧
  node_get elem "position" ≫= as_double = Some (position dv).

Definition mapping_elements (elems : list Node) : list Node :=
  filter (λ elem, Is_true (IsMap elem)) elems.



(** [first_named frames step_name k f]: [f] is the first frame of that name,
    at index [k]. *)
Definition first_named (frames : list Frame) (step_name : string) (k : nat) (f : Frame)
  : Prop :=
  frames !! k = Some f ∧ name f = step_name ∧
  ∀ k' g, (k' < k)%nat → frames !! k' = Some g → name g ≠ step_name.

Definition whitelist : list string :=
  ["rotate_torso"; "rotate_0"; "rotate_1"; "rotate_2"; "rotate_3"; "rotate_5"].

(** The updates whose joint name is on the whitelist. *)
Definition whitelisted (updates : gmap string float) : gmap string float :=
  filter (λ u, u.1 ∈ whitelist) updates.

(** The index of the last entry of [l] whose id is [i]. *)
Fixpoint last_index (i : Z) (l : list DxlValue) : option nat :=
  match l with
  | [] => None
  | dv :: rest =>
      match last_index i rest with
      | Some k => Some (S k)
      | None => if decide (id dv = i) then Some 0%nat else None
      end
  end.

(** The edit as the specification words it, on the joint sequence alone: an
    unresolved name changes nothing, a resolved id that the sequence has gets
    its position overwritten (in its last entry), a resolved id that the
    sequence lacks is appended. *)
Definition spec_update (joint_to_id : gmap string Z) (l : list DxlValue)
    (u : string * float) : list DxlValue :=
  match joint_to_id !! u.1 with
  | None => l
  | Some i =>
      match last_index i l with
      | Some k => alter (set_position u.2) k l
      | None => l ++ [mkDxlValue i u.2]
      end
  end.

(** [k] is the position of the last entry of [l] with id [i]. *)
Definition is_last (l : list DxlValue) (i : Z) (k : nat) : Prop :=
  (∃ dv, l !! k = Some dv ∧ id dv = i) ∧
  ∀ k' dv', (k < k')%nat → l !! k' = Some dv' → id dv' ≠ i.

(** The pointers of [id2dxl] are the last entries of their ids. *)
Definition pointers_ok (s : edit_state) : Prop :=
  ∀ i, index <$> id2dxl s !! i = last_index i (data (e_dxl s)).

Definition start_edit (f : Frame) : edit_state :=
  mkEdit (dxl f) 0 (index_dxl (data (dxl f)) 0 ∅).

Definition resolvable (joint_to_id : gmap string Z) (u : string * float) : Prop :=
  is_Some (joint_to_id !! u.1).

Definition unknown_joint (jname : string) : exception :=
  runtime_error ("Unknown joint name: " +:+ jname).

(** A joint as the serializer writes it. *)
Definition joint_mapping (dv : DxlValue) : Node :=
  YMap [(YScalar "id", encode_int (id dv));
        (YScalar "position", encode_double (position dv))].

(** A frame as the serializer writes it: six fields, in this order. *)
Definition frame_mapping (f : Frame) : Node :=
  YMap [(YScalar "time", encode_int (time f));
        (YScalar "delay", encode_int (delay f));
        (YScalar "repeat", encode_int (repeat f));
        (YScalar "name", encode_string (name f));
        (YScalar "selected", encode_bool (selected f));
        (YScalar "dxl", YSeq (joint_mapping <$> data (dxl f)))].

(** The blobs parsed again, all of them or none. *)
Definition expand_blobs (metas : list MetaBlob) : option (list Node) :=
  mapM (λ mb, Load (rawYaml mb)) metas.

(** What every parsed frame satisfies: its integers are C++ [int]s and its
    joint vector was filled by [push_back] alone. *)
Definition parsed_shape (f : Frame) : Prop :=
  int_range (time f) ∧ int_range (delay f) ∧ int_range (repeat f) ∧
  Forall (λ dv, int_range (id dv)) (data (dxl f)) ∧
  dxl f = foldl push_back vector_empty (data (dxl f)).

(** A document with one frame, ["pose"], that has a single joint [i] in a
    vector filled by one [push_back]. *)
Definition one_joint_editor (i : Z) : MotionEditor :=
  mkMotionEditor []
    [mkFrame 1 0 0 "pose" false (push_back vector_empty (mkDxlValue i 0.25))]
    default_joint_to_id.

Definition two_updates : gmap string float :=
  <["rotate_0" := 0.5%float]> (<["rotate_1" := 0.75%float]> ∅).

(** The two updates and one for a name no mapping of the editor has. *)
Definition three_updates : gmap string float :=
  <["totally_unknown_joint" := (-0.11)%float]> two_updates.

(** An update for an id that is new to a frame and one for an id it has. *)
Definition duplicate_updates : gmap string float :=
  <["rotate_5" := 0.125%float]> (<["rotate_1" := 0.875%float]> ∅).

(** The ids of a joint sequence, in order. *)
Definition joint_ids (l : list DxlValue) : list Z := id <$> l.

(** The ids the names of the updates resolve to, in order. *)
Definition resolved_ids (joint_to_id : gmap string Z) (updates : list (string * float))
  : list Z :=
  omap (λ u, joint_to_id !! u.1) updates.

(** The position of the last update whose name resolves to [i], if any. *)
Fixpoint final_position (joint_to_id : gmap string Z) (updates : list (string * float))
    (i : Z) : option float :=
  match updates with
  | [] => None
  | u :: rest =>
      match final_position joint_to_id rest i with
      | Some q => Some q
      | None => if decide (joint_to_id !! u.1 = Some i) then Some u.2 else None
      end
  end.

(** A joint mapping whose ids are C++ [int]s. *)
Definition mapping_ok (m : gmap string Z) : Prop :=
  ∀ j i, m !! j = Some i → int_range i.

(** Blobs as a load stores them: the dumps of entries that are not
    frame-shaped. *)
Definition blobs_ok (metas : list MetaBlob) : Prop :=
  ∃ items, metas = blob_of <$> items ∧ Forall (λ item, appearsFrame item = false) items.

(** The invariant of an editor between a load and a save. *)
Definition editor_ok (me : MotionEditor) : Prop :=
  Forall parsed_shape (frames_ me) ∧ blobs_ok (meta_blobs_ me) ∧
  mapping_ok (joint_to_id_ me).

(** The state the loop of [editJoints] stopped in, when it stopped in one. *)
Definition stopped_in (o : edit_outcome) (s' : edit_state) : Prop :=
  o = Applied s' ∨ ∃ e, o = Raised e s'.

(** Where an entry ends up once every resolved id is in the sequence. *)
Definition settle (joint_to_id : gmap string Z) (updates : list (string * float))
    (l : list DxlValue) (k : nat) (dv : DxlValue) : DxlValue :=
  if decide (last_index (id dv) l = Some k) then
    match final_position joint_to_id updates (id dv) with
    | Some q => set_position q dv
    | None => dv
    end
  else dv.

(** Ids that are C++ [int]s, in a vector filled by [push_back] alone. *)
Definition joints_ok (v : vector DxlValue) : Prop :=
  Forall (λ dv, int_range (id dv)) (data v) ∧
  v = foldl push_back vector_empty (data v).

End Vocabulary.

(** Sample documents and editors for the concrete runs. *)
Module Samples.

(** A frame entry as it stands in a motion file. *)
Definition frame_entry (frame_name : string) (joints : Node) : Node :=
  YMap [(YScalar "time", YScalar "10"); (YScalar "delay", YScalar "0");
        (YScalar "name", YScalar frame_name); (YScalar "dxl", joints)].

Definition joint_entry (i : Z) (p : float) : Node :=
  YMap [(YScalar "id", encode_int i); (YScalar "position", encode_double p)].

Definition file_of (document : Node) : FileSystem :=
  mkFileSystem {[ "motion.yaml" := Dump document ]} ∅.

(** A blob, a frame with two joints, a mapping without [dxl]. *)
Definition good_document : Node :=
  YSeq [YScalar "meta";
        frame_entry "f1" (YSeq [joint_entry 1 0.25; YScalar "skipped"; joint_entry 22 0.5]);
        YMap [(YScalar "time", YScalar "3"); (YScalar "name", YScalar "note")]].


Definition f1 : Frame :=
  mkFrame 10 0 0 "f1" false (Vector [mkDxlValue 1 0.25; mkDxlValue 22 0.5] 2).

Definition loaded : MotionEditor :=
  mkMotionEditor
    [blob_of (YScalar "meta");
     blob_of (YMap [(YScalar "time", YScalar "3"); (YScalar "name", YScalar "note")])]
    [f1] default_joint_to_id.

(** A frame in which id 1 occurs twice. *)
Definition twice : Frame :=
  mkFrame 10 0 0 "f1" false
    (Vector [mkDxlValue 1 0.25; mkDxlValue 3 0.5; mkDxlValue 1 0.75; mkDxlValue 2 0.5] 4).

Definition with_twice : MotionEditor := mkMotionEditor [] [twice] default_joint_to_id.

(** The motion file [with_twice] is loaded from. *)
Definition twice_document : Node :=
  YSeq [frame_entry "f1"
          (YSeq [joint_entry 1 0.25; joint_entry 3 0.5; joint_entry 1 0.75;
                 joint_entry 2 0.5])].

(** The same frame with id 5 in the place of id 1. *)
Definition mirrored : Frame :=
  mkFrame 10 0 0 "f1" false
    (Vector [mkDxlValue 5 0.25; mkDxlValue 3 0.5; mkDxlValue 5 0.75; mkDxlValue 2 0.5] 4).

Definition with_mirrored : MotionEditor :=
  mkMotionEditor [] [mirrored] default_joint_to_id.

(** The edit used in the runs below: one joint the frame does not have. *)
Definition one_update : gmap string float := {[ "rotate_3" := 0.125%float ]}.

(** [loaded] after [editJoints "f1" one_update]. *)
Definition edited : MotionEditor :=
  mkMotionEditor (meta_blobs_ loaded)
    [with_dxl f1 (Vector [mkDxlValue 1 0.25; mkDxlValue 22 0.5; mkDxlValue 3 0.125] 4)]
    default_joint_to_id.

Definition good_items : list Node :=
  [YScalar "meta";
   frame_entry "f1" (YSeq [joint_entry 1 0.25; YScalar "skipped"; joint_entry 22 0.5]);
   YMap [(YScalar "time", YScalar "3"); (YScalar "name", YScalar "note")]].

(** A motion file with the frames ["1"] and ["2"]. *)
Definition test_motion : Node :=
  YSeq [YScalar "meta";
        frame_entry "1" (YSeq [joint_entry 1 0.25]);
        frame_entry "2" (YSeq [joint_entry 0 0.5; joint_entry 1 0.25])].

End Samples.

(** * Properties *)

(** ** Classification of the top-level entries *)

Lemma key_equals_true k key : key_equals k key = true ↔ k = YScalar key.
Proof.
  destruct k; simpl; try (split; [done | congruence]).
  rewrite bool_decide_eq_true. split; congruence.
Qed.

Lemma entries_get_is_Some entries key :
  is_Some (entries_get entries key) ↔ contains_key entries key.
Proof.
  unfold contains_key. induction entries as [|[k w] rest IH]; simpl.
  - split; [intros [? [=]] | intros [v Hv]; by apply elem_of_nil in Hv].
  - destruct (key_equals k key) eqn:Hk.
    + apply key_equals_true in Hk as ->. split; [|eauto].
      intros _. exists w. left.
    + rewrite IH. split.
      * intros [v Hv]. exists v. by right.
      * intros [v Hv]. apply elem_of_cons in Hv as [[= <- <-]|Hv]; [|eauto].
        simpl in Hk. by rewrite bool_decide_eq_false in Hk.
Qed.

Section Classification.
Context `{Y : YamlCpp} `{L : StdLib}.

Lemma hasKey_spec n key :
  hasKey n key = true ↔ ∃ entries, n = YMap entries ∧ contains_key entries key.
Proof.
  unfold hasKey. rewrite andb_true_iff, bool_decide_eq_true.
  destruct n as [|s|items|entries]; simpl.
  1-3: split; [intros [[=] _] | intros (? & [=] & _)].
  rewrite entries_get_is_Some. split.
  - intros [_ H]. eauto.
  - intros (? & [= <-] & H). done.
Qed.

Lemma appearsFrame_spec item : appearsFrame item = true ↔ frame_shaped item.
Proof.
  unfold appearsFrame, frame_shaped. rewrite !andb_true_iff, !hasKey_spec. split.
  - intros [[(e & -> & Hd) (e2 & [= <-] & Ht)] (e3 & [= <-] & Hn)]. eauto.
  - intros (e & -> & Hd & Ht & Hn). eauto 10.
Qed.

(** What [load_items] returns, in terms of the two groups of entries. *)
Lemma load_items_Returns items me me' :
  load_items items me = Returns me' ↔
  ∃ frames,
    Forall2 (λ item f, parseFrameFromNode item = Value f) (frame_entries items) frames ∧
    me' = mkMotionEditor (meta_blobs_ me ++ (blob_of <$> blob_entries items))
                         (frames_ me ++ frames) (joint_to_id_ me).
Proof.
  unfold blob_entries, frame_entries.
  revert me. induction items as [|item rest IH]; intros me; simpl.
  - split.
    + intros [= <-]. exists []. split; [constructor|].
      destruct me; simpl. by rewrite !app_nil_r.
    + intros (frames & Hf & ->). apply Forall2_nil_inv_l in Hf as ->.
      destruct me; simpl. by rewrite !app_nil_r.
  - rewrite !filter_cons. destruct (appearsFrame item) eqn:Hitem; simpl.
    + destruct (decide (Is_true true)) as [_|[]]; [|done].
      destruct (decide (¬ Is_true true)) as [[]|_]; [done|].
      destruct (parseFrameFromNode item) as [f|e] eqn:Hparse.
      * rewrite IH. simpl. split.
        -- intros (frames & Hf & ->). exists (f :: frames).
           split; [by constructor|]. by rewrite <- app_assoc.
        -- intros (frames & Hf & ->).
           apply Forall2_cons_inv_l in Hf as (f' & frames' & Hf' & Hrest & ->).
           assert (f' = f) as -> by congruence.
           exists frames'. split; [done|]. by rewrite <- app_assoc.
      * split; [done|]. intros (frames & Hf & _).
        apply Forall2_cons_inv_l in Hf as (f' & ? & Hf' & _). congruence.
    + destruct (decide (Is_true false)) as [[]|_].
      destruct (decide (¬ Is_true false)) as [_|[]]; [|by intros []].
      rewrite IH. simpl. rewrite <- app_assoc. done.
Qed.

Lemma loadFromFile_Returns fs path me items me' :
  LoadFile fs path = Value (YSeq items) →
  loadFromFile fs path me = Returns me' ↔
  ∃ frames,
    Forall2 (λ item f, parseFrameFromNode item = Value f) (frame_entries items) frames ∧
    me' = mkMotionEditor (blob_of <$> blob_entries items) frames (joint_to_id_ me).
Proof.
  intros Hload. unfold loadFromFile. rewrite Hload.
  rewrite load_items_Returns. simpl. done.
Qed.

(** C1. For a document whose top-level value is a sequence, an entry is
    treated as a frame exactly when it is a mapping that contains the three
    keys [dxl], [time] and [name], whatever their values; the load returns
    exactly when every such entry parses, and then the blobs are the dumps
    of all the other entries, in order, and the frames are the parsed
    frame-shaped entries, in order.  In particular a mapping with [time] and
    [name] but without [dxl] is kept as a blob. *)
Theorem classification_by_key_presence fs path me items :
  (∀ item, appearsFrame item = true ↔ frame_shaped item) ∧
  (∀ entries, ¬ contains_key entries "dxl" →
     blob_entries [YMap entries] = [YMap entries] ∧ frame_entries [YMap entries] = []) ∧
  (LoadFile fs path = Value (YSeq items) →
   ∀ me', loadFromFile fs path me = Returns me' ↔
     ∃ frames,
       Forall2 (λ item f, parseFrameFromNode item = Value f) (frame_entries items) frames ∧
       me' = mkMotionEditor (blob_of <$> blob_entries items) frames (joint_to_id_ me)).
Proof.
  split; [apply appearsFrame_spec|]. split.
  - intros entries Hno.
    assert (appearsFrame (YMap entries) = false) as Hf.
    { apply not_true_is_false. rewrite appearsFrame_spec.
      intros (e & [= <-] & Hd & _). done. }
    unfold blob_entries, frame_entries. rewrite !filter_cons, !filter_nil, Hf. simpl.
    destruct (decide (¬ False)) as [_|[]]; [|tauto].
    destruct (decide False) as [[]|_]. done.
  - intros Hload me'. by apply loadFromFile_Returns.
Qed.

End Classification.

(** ** Parsing a frame *)

Section Parsing.
Context `{Y : YamlCpp} `{L : StdLib}.

Lemma node_as_Value {A} (conv : Node → option A) v a :
  node_as conv v = Value a ↔ v ≫= conv = Some a.
Proof.
  unfold node_as. destruct v as [n|]; simpl; [|split; discriminate].
  destruct (conv n); split; congruence.
Qed.

Lemma optional_field_Value {A} (conv : Node → option A) n key initial a :
  optional_field conv n key initial = Value a ↔ field_value conv n key initial a.
Proof.
  unfold optional_field, field_value. destruct (node_get n key) as [v|].
  - apply node_as_Value.
  - split; congruence.
Qed.

Lemma try_bind_Value {A B} (m : try A) (k : A → try B) b :
  m ≫= k = Value b ↔ ∃ a, m = Value a ∧ k a = Value b.
Proof.
  destruct m as [a|e]; simpl.
  - split; [eauto | by intros (? & [= <-] & ?)].
  - split; [discriminate | by intros (? & [=] & _)].
Qed.


Lemma parse_dxl_Value elems acc v :
  parse_dxl elems acc = Value v ↔
  ∃ dvs, Forall2 joint_of (mapping_elements elems) dvs ∧ v = foldl push_back acc dvs.
Proof.
  unfold mapping_elements. revert acc.
  induction elems as [|elem rest IH]; intros acc; simpl.
  - split.
    + intros [= <-]. exists []. split; [constructor | done].
    + intros (dvs & Hd & ->). by apply Forall2_nil_inv_l in Hd as ->.
  - rewrite filter_cons. destruct (IsMap elem); simpl.
    + destruct (decide True) as [_|[]]; [|done].
      rewrite try_bind_Value. split.
      * intros (i & Hi & Hrest). apply try_bind_Value in Hrest as (p & Hp & Hrest).
        apply IH in Hrest as (dvs & Hd & ->).
        apply node_as_Value in Hi, Hp.
        exists (mkDxlValue i p :: dvs). split; [|done].
        constructor; [by split | done].
      * intros (dvs & Hd & ->).
        apply Forall2_cons_inv_l in Hd as ([i p] & dvs' & [Hi Hp] & Hd & ->).
        simpl in Hi, Hp. exists i. split; [by apply node_as_Value|].
        apply try_bind_Value. exists p. split; [by apply node_as_Value|].
        apply IH. eauto.
    + destruct (decide False) as [[]|_]. apply IH.
Qed.


Lemma parseFrameFromNode_Value n f :
  parseFrameFromNode n = Value f ↔
  field_value as_int n "time" 0 (time f) ∧
  field_value as_int n "delay" 0 (delay f) ∧
  field_value as_int n "repeat" 0 (repeat f) ∧
  field_value as_string n "name" "" (name f) ∧
  field_value as_bool n "selected" false (selected f) ∧
  ∃ elems dvs,
    node_get n "dxl" = Some (YSeq elems) ∧
    Forall2 joint_of (mapping_elements elems) dvs ∧
    dxl f = foldl push_back vector_empty dvs.
Proof.
  unfold parseFrameFromNode. rewrite try_bind_Value. split.
  - intros (t & Ht & H1). apply try_bind_Value in H1 as (d & Hd & H1).
    apply try_bind_Value in H1 as (r & Hr & H1).
    apply try_bind_Value in H1 as (nm & Hnm & H1).
    apply try_bind_Value in H1 as (s & Hs & H1).
    apply optional_field_Value in Ht, Hd, Hr, Hnm, Hs.
    destruct (node_get n "dxl") as [[| |elems|]|]; try discriminate.
    apply try_bind_Value in H1 as (v & Hv & [= <-]). simpl.
    apply parse_dxl_Value in Hv as (dvs & Hdvs & ->).
    repeat (split; [done|]). eauto.
  - intros (Ht & Hd & Hr & Hnm & Hs & elems & dvs & Hdxl & Hdvs & Hv).
    apply optional_field_Value in Ht, Hd, Hr, Hnm, Hs.
    exists (time f). split; [done|]. rewrite Hd, Hr, Hnm, Hs. simpl.
    rewrite Hdxl. apply try_bind_Value. exists (dxl f).
    split; [apply parse_dxl_Value; eauto | by destruct f].
Qed.



End Parsing.

(** ** A load that fails *)

Section FailedLoad.
Context `{Y : YamlCpp} `{L : StdLib}.

Lemma load_items_defined items me : load_items items me ≠ UndefinedBehaviour.
Proof.
  revert me. induction items as [|item rest IH]; intros me; simpl; [done|].
  destruct (appearsFrame item); [|apply IH].
  destruct (parseFrameFromNode item); [apply IH | done].
Qed.



End FailedLoad.

(** ** Looking a frame up *)

Lemma find_from_absent i frames step_name :
  (∀ f, f ∈ frames → name f ≠ step_name) → find_from i frames step_name = -1.
Proof.
  revert i. induction frames as [|f rest IH]; intros i Hno; simpl; [done|].
  rewrite bool_decide_eq_false_2 by (apply Hno; left).
  apply IH. intros g Hg. apply Hno. by right.
Qed.

Lemma find_from_first i frames step_name k f :
  first_named frames step_name k f → find_from i frames step_name = i + Z.of_nat k.
Proof.
  revert i k. induction frames as [|g rest IH]; intros i k (Hk & Hname & Hfirst).
  { by rewrite lookup_nil in Hk. }
  simpl. destruct k as [|k].
  - injection Hk as ->. rewrite bool_decide_eq_true_2 by done. lia.
  - rewrite bool_decide_eq_false_2 by (apply (Hfirst 0%nat); [lia|done]).
    rewrite (IH (i + 1) k); [lia|].
    split; [done|]. split; [done|].
    intros k' h Hlt Hh. apply (Hfirst (S k')); [lia|done].
Qed.

Section Editing.
Context `{Y : YamlCpp} `{L : StdLib}.

Lemma edit_in_order_found step_name updates strict me k f :
  first_named (frames_ me) step_name k f →
  edit_in_order step_name updates strict me =
  finish_edit k f me
    (apply_updates (joint_to_id_ me) strict updates
       (mkEdit (dxl f) 0 (index_dxl (data (dxl f)) 0 ∅))).
Proof.
  intros Hf. unfold edit_in_order, findFrameIndexByName.
  rewrite (find_from_first 0 _ _ k f Hf).
  rewrite bool_decide_eq_false_2 by lia.
  replace (Z.to_nat (0 + Z.of_nat k)) with k by lia.
  destruct Hf as [-> _]. done.
Qed.

(** C6. When no frame of the document has the given name, [editJoints]
    throws the step-not-found error whatever the strict flag and the updates
    are, and the editor (blobs, frames, joint mapping) is as it was. *)
Theorem editJoints_missing_frame step_name updates strict me :
  (∀ f, f ∈ frames_ me → name f ≠ step_name) →
  editJoints step_name updates strict me =
  Throws (runtime_error ("MotionEditor: step not found: " +:+ step_name)) me.
Proof.
  intros Hno. unfold editJoints, edit_in_order, findFrameIndexByName.
  by rewrite find_from_absent.
Qed.

(** ** The arm and torso subset *)

Lemma lookup_put updates sub j k :
  put updates sub j !! k =
  if decide (k = j) then
    match updates !! k with Some q => Some q | None => sub !! k end
  else sub !! k.
Proof.
  unfold put. destruct (decide (k = j)) as [->|Hne].
  - destruct (updates !! j); [apply lookup_insert_eq | done].
  - destruct (updates !! j); [by apply lookup_insert_ne | done].
Qed.

Lemma lookup_puts updates names sub k :
  foldl (put updates) sub names !! k =
  if decide (k ∈ names) then
    match updates !! k with Some q => Some q | None => sub !! k end
  else sub !! k.
Proof.
  revert sub. induction names as [|j names IH]; intros sub.
  - by rewrite decide_False by apply not_elem_of_nil.
  - simpl foldl. rewrite IH, lookup_put.
    destruct (decide (k = j)) as [->|Hne].
    + rewrite (decide_True (P := j ∈ j :: names)) by left.
      destruct (decide (j ∈ names)); by destruct (updates !! j).
    + destruct (decide (k ∈ names)) as [Hin|Hnin].
      * by rewrite decide_True by (by right).
      * rewrite decide_False; [done|]. by intros [?|?]%elem_of_cons.
Qed.

Lemma puts_whitelisted (updates : gmap string float) :
  put updates (put updates (put updates (put updates (put updates
    (put updates ∅ "rotate_torso") "rotate_0") "rotate_1") "rotate_2")
    "rotate_3") "rotate_5" = whitelisted updates.
Proof.
  change (foldl (put updates) ∅ whitelist = whitelisted updates).
  apply map_eq. intros k. unfold whitelisted.
  rewrite lookup_puts, lookup_empty, map_lookup_filter.
  destruct (updates !! k) as [q|]; simpl.
  - destruct (decide (k ∈ whitelist)).
    + by rewrite option_guard_True.
    + by rewrite option_guard_False.
  - by destruct (decide (k ∈ whitelist)).
Qed.

(** C8. [editFourArmJoints] keeps the updates whose name is one of the six
    whitelisted names and passes them to [editJoints] with [strict = false];
    when none is left it returns at once and leaves the editor as it was,
    without looking the frame up, so with only other names in the updates it
    returns normally even when no frame has the given name. *)
Theorem editFourArmJoints_filters_then_delegates step_name updates me :
  length whitelist = 6%nat ∧
  editFourArmJoints step_name updates me =
    (if decide (whitelisted updates = ∅) then Returns me
     else editJoints step_name (whitelisted updates) false me) ∧
  ((∀ j, j ∈ whitelist → updates !! j = None) →
     editFourArmJoints step_name updates me = Returns me).
Proof.
  assert (editFourArmJoints step_name updates me =
    (if decide (whitelisted updates = ∅) then Returns me
     else editJoints step_name (whitelisted updates) false me)) as Heq.
  { unfold editFourArmJoints. cbv zeta. rewrite puts_whitelisted.
    destruct (decide (whitelisted updates = ∅)) as [He|Hne].
    - by rewrite bool_decide_eq_true_2.
    - by rewrite bool_decide_eq_false_2. }
  split; [done|]. split; [done|].
  intros Hnone. rewrite Heq.
  destruct (decide (whitelisted updates = ∅)) as [_|Hne]; [done|].
  destruct Hne. apply map_empty. intros j. unfold whitelisted.
  rewrite map_lookup_filter. destruct (updates !! j) as [q|] eqn:Hj; simpl; [|done].
  rewrite option_guard_False; [done|]. intros Hin. by rewrite (Hnone j Hin) in Hj.
Qed.

End Editing.

(** ** The loop of [editJoints] against the edit the specification describes *)

Lemma last_index_None i l : last_index i l = None ↔ ∀ dv, dv ∈ l → id dv ≠ i.
Proof.
  induction l as [|dv rest IH]; simpl.
  - split; [intros _ dv Hin; by apply elem_of_nil in Hin | done].
  - destruct (last_index i rest) as [k|].
    + split; [done|]. intros Hall. destruct IH as [_ IH].
      discriminate IH. intros dv' Hin. apply Hall. by right.
    + destruct (decide (id dv = i)) as [Heq|Hne].
      * split; [done|]. intros Hall. destruct (Hall dv); [left | done].
      * split; [|done]. intros _ dv' [->|Hin]%elem_of_cons; [done|].
        by apply IH.
Qed.

Lemma last_index_Some i l k : last_index i l = Some k ↔ is_last l i k.
Proof.
  unfold is_last. revert k. induction l as [|dv rest IH]; intros k; simpl.
  - split; [done|]. intros [(dv & Hdv & _) _]. by rewrite lookup_nil in Hdv.
  - destruct (last_index i rest) as [k0|] eqn:Hrest.
    + destruct (IH k0) as [IH1 _]. destruct (IH1 eq_refl) as [(dv0 & Hdv0 & Hid0) Hlater].
      split.
      * intros [= <-]. split; [by exists dv0|].
        intros [|k'] dv' Hlt Hk'; [lia|]. apply (Hlater k'); [lia | done].
      * intros [(dv1 & Hdv1 & Hid1) Hlater1]. f_equal.
        destruct (decide (k = S k0)) as [|Hne]; [done|]. exfalso.
        destruct (decide (k < S k0)%nat).
        -- by apply (Hlater1 (S k0) dv0).
        -- destruct k as [|k]; [lia|]. apply (Hlater k dv1); [lia | done | done].
    + assert (Hall := proj1 (last_index_None i rest) Hrest).
      destruct (decide (id dv = i)) as [Heq|Hne].
      * split.
        -- intros [= <-]. split; [by exists dv|].
           intros [|k'] dv' Hlt Hk'; [lia|]. apply Hall. simpl in Hk'.
           by apply list_elem_of_lookup_2 in Hk'.
        -- intros [(dv1 & Hdv1 & Hid1) _]. destruct k as [|k]; [done|].
           simpl in Hdv1. apply list_elem_of_lookup_2 in Hdv1.
           by destruct (Hall dv1).
      * split; [done|]. intros [(dv1 & Hdv1 & Hid1) _]. destruct k as [|k].
        -- simpl in Hdv1. congruence.
        -- simpl in Hdv1. apply list_elem_of_lookup_2 in Hdv1.
           by destruct (Hall dv1).
Qed.

Lemma last_index_alter i q k l :
  last_index i (alter (set_position q) k l) = last_index i l.
Proof.
  revert k. induction l as [|dv rest IH]; intros k; [done|].
  destruct k as [|k]; simpl.
  - done.
  - unfold alter in IH. by rewrite IH.
Qed.

Lemma last_index_snoc i l dv :
  last_index i (l ++ [dv]) =
  if decide (id dv = i) then Some (length l) else last_index i l.
Proof.
  induction l as [|x rest IH]; simpl.
  - by destruct (decide (id dv = i)).
  - rewrite IH. destruct (decide (id dv = i)); [done|].
    by destruct (last_index i rest).
Qed.

Lemma last_index_lt i l k : last_index i l = Some k → (k < length l)%nat.
Proof.
  intros [(dv & Hdv & _) _]%last_index_Some. by apply lookup_lt_Some in Hdv.
Qed.

Lemma index_dxl_lookup l k m i :
  index <$> index_dxl l k m !! i =
  match last_index i l with
  | Some x => Some (k + x)%nat
  | None => index <$> m !! i
  end.
Proof.
  revert k m. induction l as [|dv rest IH]; intros k m; simpl; [done|].
  rewrite IH. destruct (last_index i rest) as [x|].
  - f_equal. lia.
  - destruct (decide (id dv = i)) as [<-|Hne].
    + rewrite lookup_insert_eq. simpl. f_equal. lia.
    + by rewrite lookup_insert_ne.
Qed.

Lemma index_dxl_buffer l k m i p :
  (∀ i p, m !! i = Some p → buffer p = 0%nat) →
  index_dxl l k m !! i = Some p → buffer p = 0%nat.
Proof.
  revert k m. induction l as [|dv rest IH]; intros k m Hm; simpl; [apply Hm|].
  apply IH. intros i' p'. destruct (decide (id dv = i')) as [<-|Hne].
  - rewrite lookup_insert_eq. by intros [= <-].
  - rewrite lookup_insert_ne by done. apply Hm.
Qed.

Lemma start_edit_ok f : pointers_ok (start_edit f).
Proof.
  intros i. simpl. rewrite index_dxl_lookup, lookup_empty. simpl.
  by destruct (last_index i (data (dxl f))).
Qed.

Section Loop.
Context `{L : StdLib}.

Lemma data_push_back {A} (v : vector A) x : data (push_back v x) = data v ++ [x].
Proof. unfold push_back. by destruct (needs_realloc v). Qed.

(** One iteration that completes does what the specification describes. *)
Lemma apply_update_refines joint_to_id strict s u s' :
  pointers_ok s →
  apply_update joint_to_id strict s u = Applied s' →
  data (e_dxl s') = spec_update joint_to_id (data (e_dxl s)) u ∧ pointers_ok s'.
Proof.
  intros Hok. unfold apply_update, spec_update. destruct u as [jname qrad]. simpl.
  destruct (joint_to_id !! jname) as [i|].
  - specialize (Hok i) as Hi.
    destruct (id2dxl s !! i) as [p|] eqn:Hp; simpl in Hi; rewrite <- Hi.
    + case_bool_decide; [|done]. intros [= <-]. simpl. split; [done|].
      intros i'. simpl. rewrite last_index_alter. apply Hok.
    + intros [= <-]. simpl. rewrite data_push_back. split; [done|].
      intros i'. simpl. rewrite data_push_back, last_index_snoc. simpl.
      destruct (decide (i = i')) as [<-|Hne].
      * by rewrite lookup_insert_eq.
      * rewrite lookup_insert_ne by done. apply Hok.
  - destruct strict; [done|]. by intros [= <-].
Qed.

Lemma apply_updates_refines joint_to_id strict updates s s' :
  pointers_ok s →
  apply_updates joint_to_id strict updates s = Applied s' →
  data (e_dxl s') = foldl (spec_update joint_to_id) (data (e_dxl s)) updates ∧
  pointers_ok s'.
Proof.
  revert s. induction updates as [|u rest IH]; intros s Hok; simpl.
  - by intros [= <-].
  - destruct (apply_update joint_to_id strict s u) as [s1| |] eqn:Hstep; [|done..].
    apply apply_update_refines in Hstep as [Hdata Hok1]; [|done].
    intros Hrest. apply IH in Hrest as [-> Hok']; [|done]. by rewrite Hdata.
Qed.

Lemma apply_updates_app joint_to_id strict us1 us2 s :
  apply_updates joint_to_id strict (us1 ++ us2) s =
  match apply_updates joint_to_id strict us1 s with
  | Applied s1 => apply_updates joint_to_id strict us2 s1
  | o => o
  end.
Proof.
  revert s. induction us1 as [|u rest IH]; intros s; simpl; [done|].
  destruct (apply_update joint_to_id strict s u); [apply IH | done..].
Qed.

End Loop.

(** ** Names the joint mapping does not resolve *)

Lemma first_failing {A} (P : A → Prop) `{∀ x, Decision (P x)} (l : list A) x :
  x ∈ l → ¬ P x →
  ∃ before y after, l = before ++ y :: after ∧ Forall P before ∧ ¬ P y.
Proof.
  induction l as [|a rest IH]; intros Hin Hx; [by apply elem_of_nil in Hin|].
  destruct (decide (P a)) as [Ha|Ha].
  - apply elem_of_cons in Hin as [->|Hin]; [done|].
    destruct (IH Hin Hx) as (before & y & after & -> & Hb & Hy).
    exists (a :: before), y, after. split; [done|]. split; [by constructor | done].
  - exists [], a, rest. split; [done|]. split; [constructor | done].
Qed.

Lemma last_satisfying {A} (P : A → Prop) `{∀ x, Decision (P x)} (l : list A) x :
  x ∈ l → P x →
  ∃ before y after, l = before ++ y :: after ∧ P y ∧ Forall (λ z, ¬ P z) after.
Proof.
  revert x. induction l as [|a rest IH]; intros x Hin Hx; [by apply elem_of_nil in Hin|].
  destruct (decide (Exists P rest)) as [Hex|Hno].
  - apply Exists_exists in Hex as (x' & Hin' & Hx').
    destruct (IH x' Hin' Hx') as (before & y & after & -> & Hy & Hafter).
    by exists (a :: before), y, after.
  - apply not_Exists_Forall in Hno; [|apply _].
    exists [], a, rest. split; [done|]. split; [|done].
    apply elem_of_cons in Hin as [<-|Hin]; [done|].
    rewrite Forall_forall in Hno. by destruct (Hno x Hin).
Qed.

Section Unresolved.
Context `{L : StdLib}.

Lemma apply_updates_skips_unresolved joint_to_id updates s :
  apply_updates joint_to_id false updates s =
  apply_updates joint_to_id false (filter (resolvable joint_to_id) updates) s.
Proof.
  revert s. induction updates as [|[j q] rest IH]; intros s; [done|].
  rewrite filter_cons.
  destruct (decide (resolvable joint_to_id (j, q))) as [[i Hi]|Hno]; simpl in *.
  - rewrite Hi. destruct (id2dxl s !! i) as [p|]; [|apply IH].
    case_bool_decide; [apply IH | done].
  - destruct (joint_to_id !! j) as [i|] eqn:Hj; [|apply IH].
    destruct Hno. by exists i.
Qed.

Lemma apply_updates_lenient_no_raise joint_to_id updates s e s' :
  apply_updates joint_to_id false updates s ≠ Raised e s'.
Proof.
  revert s. induction updates as [|[j q] rest IH]; intros s; simpl; [done|].
  destruct (joint_to_id !! j) as [i|]; [|apply IH].
  destruct (id2dxl s !! i) as [p|]; [|apply IH].
  case_bool_decide; [apply IH | done].
Qed.

Lemma apply_updates_all_resolvable joint_to_id strict updates s :
  Forall (resolvable joint_to_id) updates →
  apply_updates joint_to_id strict updates s = apply_updates joint_to_id false updates s.
Proof.
  intros Hall. revert s.
  induction Hall as [|[j q] rest [i Hi] _ IH]; intros s; simpl; [done|].
  simpl in Hi. rewrite Hi.
  destruct (id2dxl s !! i) as [p|]; [|apply IH].
  case_bool_decide; [apply IH | done].
Qed.

(** How unresolved names enter a call on a frame that exists.  With
    [strict = false] the call runs as the call on the resolvable pairs alone,
    in the same order, and no exception leaves it; with [strict = true] and a
    name the mapping does not resolve, the call runs as the lenient call on
    the pairs visited before the first such name and, when that one returns,
    throws the unknown-joint error for that name.  Whether the pairs that
    are run are applied is the matter of the loop, see
    [apply_updates_refines] and [apply_updates_with_room]. *)
Lemma unresolved_joint_names step_name updates me k f :
  first_named (frames_ me) step_name k f →
  (editJoints step_name updates false me =
     edit_in_order step_name
       (filter (resolvable (joint_to_id_ me)) (umap_order updates)) false me ∧
   ∀ e me', editJoints step_name updates false me ≠ Throws e me') ∧
  ((∃ j q, updates !! j = Some q ∧ joint_to_id_ me !! j = None) →
   ∃ before j q after,
     umap_order updates = before ++ (j, q) :: after ∧
     Forall (resolvable (joint_to_id_ me)) before ∧
     joint_to_id_ me !! j = None ∧
     editJoints step_name updates true me =
       match edit_in_order step_name before false me with
       | Returns me1 => Throws (unknown_joint j) me1
       | r => r
       end).
Proof.
  intros Hf. unfold editJoints. split; [split|].
  - rewrite !(edit_in_order_found _ _ _ _ k f Hf).
    by rewrite apply_updates_skips_unresolved.
  - intros e me'. rewrite (edit_in_order_found _ _ _ _ k f Hf).
    destruct (apply_updates _ _ _ _) as [s1|e1 s1|] eqn:Hrun; simpl; [done| |done].
    by apply apply_updates_lenient_no_raise in Hrun.
  - intros (j & q & Hq & Hj).
    assert ((j, q) ∈ umap_order updates) as Hin.
    { rewrite umap_order_perm. by apply elem_of_map_to_list. }
    destruct (first_failing (resolvable (joint_to_id_ me)) _ _ Hin)
      as (before & [j' q'] & after & Heq & Hbefore & Hj').
    { intros [i Hi]. simpl in Hi. congruence. }
    assert (joint_to_id_ me !! j' = None) as Hnone.
    { destruct (joint_to_id_ me !! j') eqn:E; [|done]. destruct Hj'. by eexists. }
    exists before, j', q', after. repeat (split; [done|]).
    rewrite !(edit_in_order_found _ _ _ _ k f Hf), Heq, apply_updates_app.
    rewrite (apply_updates_all_resolvable _ true before) by done.
    destruct (apply_updates _ false before _) as [s1|e1 s1|]; simpl; [|done..].
    by rewrite Hnone.
Qed.

End Unresolved.

(** ** Entries that share an id *)

Section SpecUpdate.
Variable joint_to_id : gmap string Z.

Lemma spec_update_last_index l u i :
  joint_to_id !! u.1 ≠ Some i →
  last_index i (spec_update joint_to_id l u) = last_index i l.
Proof.
  intros Hu. unfold spec_update. destruct (joint_to_id !! u.1) as [i'|]; [|done].
  destruct (last_index i' l) as [k|].
  - apply last_index_alter.
  - rewrite last_index_snoc. simpl. rewrite decide_False; [done | congruence].
Qed.

Lemma spec_update_keeps_other l u i k dv :
  joint_to_id !! u.1 ≠ Some i → l !! k = Some dv → id dv = i →
  spec_update joint_to_id l u !! k = Some dv.
Proof.
  intros Hu Hk Hid. unfold spec_update.
  destruct (joint_to_id !! u.1) as [i'|]; [|done].
  destruct (last_index i' l) as [k'|] eqn:Hlast.
  - apply last_index_Some in Hlast as [(dv' & Hk' & Hid') _].
    rewrite list_lookup_alter_ne; [done|]. intros <-. congruence.
  - by apply lookup_app_l_Some.
Qed.

Lemma spec_updates_last_index us l i :
  (∀ u, u ∈ us → joint_to_id !! u.1 ≠ Some i) →
  last_index i (foldl (spec_update joint_to_id) l us) = last_index i l.
Proof.
  revert l. induction us as [|u rest IH]; intros l Hus; simpl; [done|].
  rewrite IH by (intros u' Hu'; apply Hus; by right).
  apply spec_update_last_index, Hus. left.
Qed.

Lemma spec_updates_keep_other us l i k dv :
  (∀ u, u ∈ us → joint_to_id !! u.1 ≠ Some i) → l !! k = Some dv → id dv = i →
  foldl (spec_update joint_to_id) l us !! k = Some dv.
Proof.
  revert l. induction us as [|u rest IH]; intros l Hus Hk Hid; simpl; [done|].
  apply IH; [intros u' Hu'; apply Hus; by right | | done].
  apply spec_update_keeps_other with i; [apply Hus; left | done..].
Qed.

Lemma spec_update_keeps_earlier l u i kl :
  last_index i l = Some kl →
  last_index i (spec_update joint_to_id l u) = Some kl ∧
  ∀ k' dv', k' ≠ kl → l !! k' = Some dv' → id dv' = i →
    spec_update joint_to_id l u !! k' = Some dv'.
Proof.
  intros Hlast. destruct (decide (joint_to_id !! u.1 = Some i)) as [Hu|Hu].
  - unfold spec_update. rewrite Hu, Hlast. split.
    + by rewrite last_index_alter.
    + intros k' dv' Hne Hk' _. by rewrite list_lookup_alter_ne.
  - split.
    + by rewrite spec_update_last_index.
    + intros k' dv' _ Hk' Hid. by apply spec_update_keeps_other with i.
Qed.

Lemma spec_updates_keep_earlier us l i kl :
  last_index i l = Some kl →
  last_index i (foldl (spec_update joint_to_id) l us) = Some kl ∧
  ∀ k' dv', k' ≠ kl → l !! k' = Some dv' → id dv' = i →
    foldl (spec_update joint_to_id) l us !! k' = Some dv'.
Proof.
  revert l. induction us as [|u rest IH]; intros l Hlast; simpl; [done|].
  destruct (spec_update_keeps_earlier l u i kl Hlast) as [Hlast1 Hkeep1].
  destruct (IH _ Hlast1) as [Hlast2 Hkeep2]. split; [done|].
  intros k' dv' Hne Hk' Hid. apply Hkeep2; [done| |done]. by apply Hkeep1.
Qed.

(** The pure content of the claim on duplicate ids: when some name of the
    updates resolves to [i], the last entry with id [i] takes the position
    of such an update and every other entry with id [i] stays as it was. *)
Lemma spec_updates_duplicate_ids us l i j q kl :
  last_index i l = Some kl → (j, q) ∈ us → joint_to_id !! j = Some i →
  (∃ j' q', (j', q') ∈ us ∧ joint_to_id !! j' = Some i ∧
     foldl (spec_update joint_to_id) l us !! kl = Some (mkDxlValue i q')) ∧
  ∀ k' dv', k' ≠ kl → l !! k' = Some dv' → id dv' = i →
    foldl (spec_update joint_to_id) l us !! k' = Some dv'.
Proof.
  intros Hlast Hin Hj. split; [|by apply spec_updates_keep_earlier].
  destruct (last_satisfying (λ u, joint_to_id !! u.1 = Some i) us (j, q) Hin Hj)
    as (before & [j' q'] & after & -> & Hj' & Hafter).
  simpl in Hj'. exists j', q'.
  split; [apply elem_of_app; right; left|]. split; [done|].
  rewrite foldl_app. simpl.
  destruct (spec_updates_keep_earlier before l i kl Hlast) as [Hlast1 _].
  set (l1 := foldl (spec_update joint_to_id) l before) in *.
  assert (spec_update joint_to_id l1 (j', q') = alter (set_position q') kl l1) as ->.
  { unfold spec_update. simpl. by rewrite Hj', Hlast1. }
  apply last_index_Some in Hlast1 as [(dv & Hdv & Hid) _].
  apply spec_updates_keep_other with i; [|  |done].
  - intros u Hu. by eapply Forall_forall in Hafter.
  - rewrite list_lookup_alter_eq, Hdv. simpl. unfold set_position. by rewrite Hid.
Qed.

End SpecUpdate.

Section Duplicates.
Context `{L : StdLib}.

Lemma umap_order_elem_of (updates : gmap string float) j q :
  (j, q) ∈ umap_order updates ↔ updates !! j = Some q.
Proof. rewrite umap_order_perm. apply elem_of_map_to_list. Qed.

Lemma umap_order_NoDup (updates : gmap string float) : NoDup (umap_order updates).*1.
Proof. rewrite umap_order_perm. apply NoDup_fst_map_to_list. Qed.

(** Updates that only name ids the vector already holds never reallocate,
    so every write goes through a live pointer and the loop completes. *)
Lemma apply_updates_present_ids joint_to_id strict updates s :
  pointers_ok s → e_buffer s = 0%nat →
  (∀ i p, id2dxl s !! i = Some p → buffer p = 0%nat) →
  (∀ u, u ∈ updates →
     ∃ i, joint_to_id !! u.1 = Some i ∧ is_Some (last_index i (data (e_dxl s)))) →
  ∃ s', apply_updates joint_to_id strict updates s = Applied s'.
Proof.
  revert s. induction updates as [|[j q] rest IH]; intros s Hok Hbuf Hptr Hall; simpl.
  { by eexists. }
  destruct (Hall (j, q)) as (i & Hi & [k Hk]); [left|]. simpl in Hi. rewrite Hi.
  specialize (Hok i) as Hoki. rewrite Hk in Hoki.
  destruct (id2dxl s !! i) as [p|] eqn:Hp; [|done].
  rewrite bool_decide_eq_true_2 by (rewrite Hbuf; by apply (Hptr i)).
  apply IH; simpl; [|done|done|].
  - intros i'. simpl. rewrite last_index_alter. apply Hok.
  - intros u Hu. destruct (Hall u) as (i' & Hi' & Hsome); [by right|].
    exists i'. by rewrite last_index_alter.
Qed.

(** Entries that share an id, in the calls that return.  In a frame that
    has several entries with the id [i], a call that returns, with an update
    whose name resolves to [i], has rewritten the position of the last entry
    with that id, to the position of such an update (the one of the given
    update when no other name resolves to [i]), and has left every other
    entry with that id as it was; a call whose names all resolve to ids the
    frame already has does return. *)
Lemma duplicate_ids_update_last_entry step_name updates strict me k f i j q kl :
  first_named (frames_ me) step_name k f →
  is_last (data (dxl f)) i kl →
  updates !! j = Some q → joint_to_id_ me !! j = Some i →
  (∀ me', editJoints step_name updates strict me = Returns me' →
     ∃ f', frames_ me' !! k = Some f' ∧
       (∃ j' q', updates !! j' = Some q' ∧ joint_to_id_ me !! j' = Some i ∧
          data (dxl f') !! kl = Some (mkDxlValue i q')) ∧
       ((∀ j' q', updates !! j' = Some q' → joint_to_id_ me !! j' = Some i → j' = j) →
          data (dxl f') !! kl = Some (mkDxlValue i q)) ∧
       ∀ k' dv', k' ≠ kl → data (dxl f) !! k' = Some dv' → id dv' = i →
         data (dxl f') !! k' = Some dv') ∧
  ((∀ j' q', updates !! j' = Some q' →
      ∃ i' dv', joint_to_id_ me !! j' = Some i' ∧ dv' ∈ data (dxl f) ∧ id dv' = i') →
   ∃ me', editJoints step_name updates strict me = Returns me').
Proof.
  intros Hf Hlast Hq Hj. unfold editJoints.
  rewrite (edit_in_order_found _ _ _ _ k f Hf). fold (start_edit f). split.
  - intros me'.
    destruct (apply_updates _ _ _ _) as [s'| |] eqn:Hrun; simpl; [|done..].
    intros [= <-].
    apply apply_updates_refines in Hrun as [Hdata _]; [|apply start_edit_ok].
    exists (with_dxl f (e_dxl s')). split.
    { simpl. apply list_lookup_insert_eq. destruct Hf as [Hk _].
      by apply lookup_lt_Some in Hk. }
    simpl. rewrite Hdata. simpl.
    destruct (spec_updates_duplicate_ids (joint_to_id_ me) (umap_order updates)
                (data (dxl f)) i j q kl) as [(j' & q' & Hin' & Hj' & Hkl) Hothers].
    + by apply last_index_Some.
    + by apply umap_order_elem_of.
    + done.
    + apply umap_order_elem_of in Hin'. split; [by exists j', q'|]. split; [|done].
      intros Honly. assert (j' = j) as -> by (by apply (Honly j' q')).
      assert (q' = q) as -> by congruence. done.
  - intros Hpresent.
    destruct (apply_updates_present_ids (joint_to_id_ me) strict
                (umap_order updates) (start_edit f)) as [s' Hs'].
    + apply start_edit_ok.
    + done.
    + intros i' p. simpl. apply index_dxl_buffer. intros ? ?. by rewrite lookup_empty.
    + intros [j' q'] Hin. apply umap_order_elem_of in Hin.
      destruct (Hpresent j' q' Hin) as (i' & dv' & Hi' & Hdv' & Hid').
      exists i'. split; [done|]. simpl.
      destruct (last_index i' (data (dxl f))) eqn:E; [by eexists|].
      by destruct (proj1 (last_index_None _ _) E dv').
    + rewrite Hs'. simpl. by eexists.
Qed.

End Duplicates.

(** ** Saving *)

Section Saving.
Context `{Y : YamlCpp} `{L : StdLib}.

Lemma foldl_node_push_back {A} (g : A → Node) (l : list A) (acc : list Node) :
  foldl (λ out x, node_push_back out (g x)) (YSeq acc) l = YSeq (acc ++ (g <$> l)).
Proof.
  revert acc. induction l as [|x rest IH]; intros acc; simpl.
  - by rewrite app_nil_r.
  - rewrite IH, <- app_assoc. done.
Qed.

Lemma joint_node_mapping dv : joint_node dv = joint_mapping dv.
Proof. reflexivity. Qed.

Lemma frame_node_mapping f : frame_node f = frame_mapping f.
Proof.
  unfold frame_node. cbv zeta.
  rewrite (foldl_node_push_back joint_node (data (dxl f)) []). reflexivity.
Qed.

Lemma push_metas_expand metas acc :
  push_metas metas (YSeq acc) =
  match expand_blobs metas with
  | Some nodes => Value (YSeq (acc ++ nodes))
  | None => Thrown yaml_exception
  end.
Proof.
  unfold expand_blobs. revert acc. induction metas as [|mb rest IH]; intros acc; simpl.
  - by rewrite app_nil_r.
  - destruct (Load (rawYaml mb)) as [m|]; simpl; [|done].
    rewrite IH. destruct (mapM _ rest); simpl; [|done].
    by rewrite <- app_assoc.
Qed.

Lemma buildYamlFromAll_closed_form metas frames :
  buildYamlFromAll metas frames =
  match expand_blobs metas with
  | Some nodes => Value (YSeq (nodes ++ (frame_mapping <$> frames)))
  | None => Thrown yaml_exception
  end.
Proof.
  unfold buildYamlFromAll. rewrite (push_metas_expand metas []).
  destruct (expand_blobs metas) as [nodes|]; simpl; [|done].
  rewrite (foldl_node_push_back frame_node frames nodes). do 2 f_equal.
  f_equal. apply list_fmap_ext. intros _ f _. apply frame_node_mapping.
Qed.

Lemma expand_blobs_of `{!YamlCppRoundTrip Y} items :
  expand_blobs (blob_of <$> items) = Some items.
Proof.
  unfold expand_blobs. apply mapM_Some. induction items as [|item rest IH]; simpl.
  - constructor.
  - constructor; [apply Load_Dump | done].
Qed.

Lemma saveToFile_writes me path fs nodes :
  expand_blobs (meta_blobs_ me) = Some nodes → path ∉ read_only fs →
  saveToFile me path fs =
  Value (mkFileSystem
           (<[path := Dump (YSeq (nodes ++ (frame_mapping <$> frames_ me)))]> (contents fs))
           (read_only fs)).
Proof.
  intros Hnodes Hw. unfold saveToFile.
  rewrite buildYamlFromAll_closed_form, Hnodes. simpl.
  by rewrite bool_decide_eq_false_2.
Qed.

(** C9. The tree [saveToFile] writes is a sequence: first every blob,
    parsed again from its stored text, in the order of the blobs, then every
    frame, in the order of the frames, each a mapping of exactly the six
    fields [time], [delay], [repeat], [name], [selected], [dxl] in this
    order, where [dxl] is the sequence of the frame's joints in their
    current order, each a mapping of [id] and [position].  The text of this
    tree replaces the content of the file.  For blobs that a load has stored
    the re-expansion succeeds, given that yaml-cpp parses what it emits. *)
Theorem save_emits_blobs_then_frames me path fs :
  (∀ f, frame_node f = frame_mapping f) ∧
  buildYamlFromAll (meta_blobs_ me) (frames_ me) =
    match expand_blobs (meta_blobs_ me) with
    | Some nodes => Value (YSeq (nodes ++ (frame_mapping <$> frames_ me)))
    | None => Thrown yaml_exception
    end ∧
  (∀ nodes, expand_blobs (meta_blobs_ me) = Some nodes → path ∉ read_only fs →
     saveToFile me path fs =
     Value (mkFileSystem
              (<[path := Dump (YSeq (nodes ++ (frame_mapping <$> frames_ me)))]> (contents fs))
              (read_only fs))) ∧
  (YamlCppRoundTrip Y →
   ∀ items, meta_blobs_ me = blob_of <$> items →
     expand_blobs (meta_blobs_ me) = Some items).
Proof.
  split; [apply frame_node_mapping|]. split; [apply buildYamlFromAll_closed_form|].
  split.
  - intros nodes. apply saveToFile_writes.
  - intros RT items ->. apply expand_blobs_of.
Qed.

End Saving.

(** ** Load, save and load again *)

Lemma filter_all {A} (P : A → Prop) `{∀ x, Decision (P x)} (l : list A) :
  Forall P l → filter P l = l.
Proof.
  induction 1 as [|x rest Hx _ IH]; [done|].
  rewrite filter_cons, decide_True by done. by rewrite IH.
Qed.

Lemma filter_none {A} (P : A → Prop) `{∀ x, Decision (P x)} (l : list A) :
  Forall (λ x, ¬ P x) l → filter P l = [].
Proof.
  induction 1 as [|x rest Hx _ IH]; [done|].
  by rewrite filter_cons, decide_False.
Qed.

Section RoundTrip.
Context `{Y : YamlCpp} `{L : StdLib} `{RT : !YamlCppRoundTrip Y}.

Lemma data_foldl_push_back {A} (l : list A) (v : vector A) :
  data (foldl push_back v l) = data v ++ l.
Proof.
  revert v. induction l as [|x rest IH]; intros v; simpl.
  - by rewrite app_nil_r.
  - rewrite IH, data_push_back, <- app_assoc. done.
Qed.

Lemma field_value_int_range n key z :
  field_value as_int n key 0 z → int_range z.
Proof.
  unfold field_value. destruct (node_get n key) as [v|].
  - apply as_int_range.
  - intros ->. unfold int_range. lia.
Qed.

Lemma parse_gives_parsed_shape n f :
  parseFrameFromNode n = Value f → parsed_shape f.
Proof.
  intros Hparse. apply parseFrameFromNode_Value in Hparse
    as (Ht & Hd & Hr & _ & _ & elems & dvs & _ & Hdvs & Hv).
  assert (data (dxl f) = dvs) as Hdata by (by rewrite Hv, data_foldl_push_back).
  repeat split; try by eapply field_value_int_range.
  - rewrite Hdata. clear Hv Hdata. induction Hdvs as [|elem dv ? ? [Hid _] _ IH]; [done|].
    constructor; [|done].
    destruct (node_get elem "id") as [v|]; simpl in Hid; [|done].
    by apply as_int_range in Hid.
  - by rewrite Hdata.
Qed.

Lemma mapping_elements_joints dvs :
  mapping_elements (joint_mapping <$> dvs) = joint_mapping <$> dvs.
Proof.
  apply filter_all. apply Forall_fmap. by apply Forall_true.
Qed.

Lemma parse_frame_mapping f :
  parsed_shape f → parseFrameFromNode (frame_mapping f) = Value f.
Proof.
  intros (Ht & Hd & Hr & Hids & Hv).
  apply parseFrameFromNode_Value. unfold field_value. simpl.
  rewrite !as_int_encode, as_string_encode, as_bool_encode by done.
  repeat (split; [done|]).
  exists (joint_mapping <$> data (dxl f)), (data (dxl f)).
  split; [done|]. split; [|done].
  rewrite mapping_elements_joints. apply Forall2_fmap_l, Forall2_same_length_lookup_2.
  { done. }
  intros k dv dv' Hdv Hdv'. assert (dv' = dv) as -> by congruence.
  unfold joint_of. simpl. rewrite as_double_encode, as_int_encode; [done|].
  by eapply Forall_lookup_1 in Hids.
Qed.

Lemma appearsFrame_frame_mapping f : appearsFrame (frame_mapping f) = true.
Proof. reflexivity. Qed.

(** Loading the entries that a save writes for a loaded document. *)
Lemma load_items_saved blobs frames me :
  Forall (λ item, appearsFrame item = false) blobs →
  Forall parsed_shape frames →
  load_items (blobs ++ (frame_mapping <$> frames)) me =
  Returns (mkMotionEditor (meta_blobs_ me ++ (blob_of <$> blobs))
                          (frames_ me ++ frames) (joint_to_id_ me)).
Proof.
  intros Hblobs Hframes. apply load_items_Returns. exists frames.
  unfold frame_entries, blob_entries. rewrite !filter_app.
  rewrite (filter_none _ blobs), (filter_all _ (frame_mapping <$> frames)).
  2: { apply Forall_fmap, Forall_true. intros f. simpl. tauto. }
  2: { eapply Forall_impl; [exact Hblobs|]. intros item ->. simpl. tauto. }
  rewrite (filter_all _ blobs), (filter_none _ (frame_mapping <$> frames)).
  2: { apply Forall_fmap, Forall_true. intros f. simpl. tauto. }
  2: { eapply Forall_impl; [exact Hblobs|]. intros item ->. simpl. tauto. }
  rewrite app_nil_r. split; [|done]. simpl.
  apply Forall2_fmap_l, Forall2_same_length_lookup_2; [done|].
  intros k f f' Hf Hf'. assert (f' = f) as -> by congruence.
  apply parse_frame_mapping. by eapply Forall_lookup_1 in Hframes.
Qed.

(** C2. After a load that succeeds, a save to a path that can be written
    succeeds, and a load from that path yields the same frames: the same
    [time], [delay], [repeat], [name] and [selected], and the same joints in
    the same order; the blobs come back as well.  This rests on two facts
    about yaml-cpp, assumed here: text it emits parses back to the same
    tree, and an encoded scalar converts back to its value. *)
Theorem load_save_load_frames fs path tmp me0 me1 :
  loadFromFile fs path me0 = Returns me1 →
  tmp ∉ read_only fs →
  ∃ fs', saveToFile me1 tmp fs = Value fs' ∧
    ∀ me2, ∃ me3,
      loadFromFile fs' tmp me2 = Returns me3 ∧
      frames_ me3 = frames_ me1 ∧
      meta_blobs_ me3 = meta_blobs_ me1.
Proof.
  intros Hload Hw.
  assert (∃ items, LoadFile fs path = Value (YSeq items)) as [items Hroot].
  { unfold loadFromFile in Hload. destruct (LoadFile fs path) as [[| |items|]|]; try done.
    by exists items. }
  apply (loadFromFile_Returns fs path me0 items) in Hload
    as (frames & Hparsed & ->); [|done].
  set (me1 := mkMotionEditor _ _ _).
  rewrite (saveToFile_writes me1 tmp fs (blob_entries items)
             (expand_blobs_of (blob_entries items)) Hw).
  eexists. split; [done|].
  intros me2. unfold loadFromFile, LoadFile. simpl.
  rewrite lookup_insert_eq, Load_Dump.
  rewrite load_items_saved.
  - eexists. split; [done|]. done.
  - unfold blob_entries. apply Forall_forall. intros item Hin.
    apply list_elem_of_filter in Hin as [Hno _]. by destruct (appearsFrame item).
  - apply Forall_forall. intros f Hin.
    apply list_elem_of_lookup in Hin as [k Hk].
    destruct (Forall2_lookup_r _ _ _ _ _ Hparsed Hk) as (item & _ & Hitem).
    by apply parse_gives_parsed_shape in Hitem.
Qed.

End RoundTrip.

(** ** The reference model satisfies the round-trip laws *)

Module ReferenceLaws.
Import Reference.

Lemma emit_YSeq items : emit (YSeq items) = "["%char :: emit_items items.
Proof. reflexivity. Qed.

Lemma emit_YMap entries : emit (YMap entries) = "{"%char :: emit_entries entries.
Proof. reflexivity. Qed.

(** Every emitted node starts with a character that opens a node. *)
Lemma emit_head n :
  ∃ c r, emit n = c :: r ∧ c ≠ "]"%char ∧ c ≠ "}"%char.
Proof. destruct n; simpl; eexists _, _; (split; [reflexivity|]); by split. Qed.

Lemma read_scalar_escape s rest :
  read_scalar (escape s ++ dquote :: rest) = Some (s, rest).
Proof.
  induction s as [|c r IH]; [done|]. simpl.
  case_bool_decide as Hc; simpl.
  - rewrite IH. simpl. destruct Hc as [-> | ->]; done.
  - rewrite !bool_decide_eq_false_2 by tauto. by rewrite IH.
Qed.

Lemma read_emit fuel :
  (∀ n rest, (length (emit n) ≤ fuel)%nat →
     read_node fuel (emit n ++ rest) = Some (n, rest)) ∧
  (∀ l rest, (length (emit_items l) ≤ fuel)%nat →
     read_items fuel (emit_items l ++ rest) = Some (l, rest)) ∧
  (∀ l rest, (length (emit_entries l) ≤ fuel)%nat →
     read_entries fuel (emit_entries l ++ rest) = Some (l, rest)).
Proof.
  induction fuel as [|fuel (IHn & IHi & IHe)].
  { split; [|split].
    - intros n rest Hlen. destruct (emit_head n) as (c & r & Hn & _).
      rewrite Hn in Hlen. simpl in Hlen. lia.
    - intros [|x l] rest Hlen; simpl in Hlen; [lia|].
      rewrite length_app in Hlen. simpl in Hlen. lia.
    - intros [|[k v] l] rest Hlen; simpl in Hlen; [lia|].
      rewrite length_app in Hlen. simpl in Hlen. lia. }
  split; [|split].
  - intros [|s|items|entries] rest Hlen.
    + done.
    + simpl. rewrite <- app_assoc. simpl. rewrite read_scalar_escape. simpl.
      by rewrite String.string_of_list_ascii_of_string.
    + rewrite emit_YSeq in *. simpl in *. rewrite IHi by lia. done.
    + rewrite emit_YMap in *. simpl in *. rewrite IHe by lia. done.
  - intros [|x l] rest Hlen; [done|].
    change (emit_items (x :: l)) with (emit x ++ ","%char :: emit_items l) in *.
    rewrite length_app in Hlen. simpl in Hlen.
    rewrite <- app_assoc. simpl.
    destruct (emit_head x) as (c & r & Hx & Hc & _).
    assert (read_node fuel (emit x ++ ","%char :: emit_items l ++ rest)
            = Some (x, ","%char :: emit_items l ++ rest)) as Hread
      by (apply IHn; lia).
    rewrite Hread, Hx. simpl.
    rewrite bool_decide_eq_false_2 by done. rewrite IHi by lia. done.
  - intros [|[k v] l] rest Hlen; [done|].
    change (emit_entries ((k, v) :: l))
      with (emit k ++ ":"%char :: emit v ++ ","%char :: emit_entries l) in *.
    rewrite !length_app in Hlen. simpl in Hlen. rewrite length_app in Hlen.
    simpl in Hlen.
    rewrite <- app_assoc. simpl. rewrite <- app_assoc. simpl.
    destruct (emit_head k) as (c & r & Hk & _ & Hc).
    assert (read_node fuel (emit k ++ ":"%char :: emit v ++ ","%char :: emit_entries l ++ rest)
            = Some (k, ":"%char :: emit v ++ ","%char :: emit_entries l ++ rest)) as Hread
      by (apply IHn; lia).
    rewrite Hread, Hk. simpl.
    rewrite bool_decide_eq_false_2 by done. rewrite IHn by lia. simpl.
    rewrite IHe by lia. done.
Qed.

Lemma ref_Load_Dump n : ref_Load (ref_Dump n) = Some n.
Proof.
  unfold ref_Load, ref_Dump. rewrite String.list_ascii_of_string_of_list_ascii.
  destruct (read_emit (S (length (emit n)))) as [Hn _].
  rewrite <- (app_nil_r (emit n)) at 2. rewrite Hn by lia. done.
Qed.

Lemma decimal_text_of_Z z :
  DecimalString.NilZero.int_of_string
    (DecimalString.NilZero.string_of_int (Z.to_int z)) = Some (Z.to_int z).
Proof.
  apply DecimalString.NilZero.isi; destruct z; simpl; try discriminate;
    intros [= H]; by apply DecimalPos.Unsigned.to_uint_nonnil in H.
Qed.

Lemma ref_as_int_encode z : int_range z → ref_as_int (ref_encode_int z) = Some z.
Proof.
  intros Hz. unfold ref_as_int, ref_encode_int.
  rewrite decimal_text_of_Z. simpl. rewrite DecimalZ.of_to.
  by rewrite bool_decide_eq_true_2.
Qed.

Lemma ref_as_int_range n z : ref_as_int n = Some z → int_range z.
Proof.
  unfold ref_as_int. destruct n as [|s| |]; try done.
  destruct (DecimalString.NilZero.int_of_string s) as [d|]; simpl; [|done].
  case_bool_decide; [|done]. by intros [= <-].
Qed.

Lemma split_p_append s1 s2 :
  split_p s1 = None → split_p (s1 +:+ String "p"%char s2) = Some (s1, s2).
Proof.
  induction s1 as [|c r IH]; simpl; [done|].
  case_bool_decide; [done|]. intros Hr.
  destruct (split_p r) as [[a b]|]; [done|]. by rewrite IH.
Qed.

Lemma split_p_digits d : split_p (DecimalString.NilEmpty.string_of_uint d) = None.
Proof. induction d; simpl; [done | by rewrite IHd..]. Qed.

Lemma digits_head d :
  d ≠ Decimal.Nil →
  ∃ c r, DecimalString.NilEmpty.string_of_uint d = String c r ∧ c ≠ "-"%char.
Proof. destruct d; [done | intros _; simpl; eexists _, _; by split..]. Qed.

Lemma read_finite_text sgn m e :
  read_finite sgn (DecimalString.NilEmpty.string_of_uint (Pos.to_uint m))
    (DecimalString.NilZero.string_of_int (Z.to_int e)) = Some (S754_finite sgn m e).
Proof.
  unfold read_finite. rewrite DecimalString.NilEmpty.usu. simpl.
  rewrite decimal_text_of_Z. simpl.
  by rewrite DecimalPos.Unsigned.of_to, DecimalZ.of_to.
Qed.

Lemma text_float_text d : text_float (float_text d) = Some d.
Proof.
  rewrite <- (SF2Prim_Prim2SF d) at 2. unfold float_text.
  destruct (Prim2SF d) as [[|]|[|]| |sgn m e]; try reflexivity.
  unfold text_float.
  set (U := DecimalString.NilEmpty.string_of_uint (Pos.to_uint m)).
  set (E := DecimalString.NilZero.string_of_int (Z.to_int e)).
  destruct (digits_head (Pos.to_uint m)) as (c & r & HU & Hc).
  { apply DecimalPos.Unsigned.to_uint_nonnil. }
  fold U in HU. destruct sgn.
  - change ("-" +:+ U +:+ "p" +:+ E) with (String "-"%char U +:+ String "p"%char E).
    rewrite split_p_append by (simpl; unfold U; by rewrite split_p_digits).
    rewrite bool_decide_eq_true_2 by done. unfold U, E. by rewrite read_finite_text.
  - change ("" +:+ U +:+ "p" +:+ E) with (U +:+ String "p"%char E).
    rewrite split_p_append by apply split_p_digits.
    rewrite HU, bool_decide_eq_false_2 by done. rewrite <- HU. unfold U, E.
    by rewrite read_finite_text.
Qed.

#[global] Instance ref_yaml_round_trip : YamlCppRoundTrip ref_yaml.
Proof.
  split; simpl.
  - apply ref_Load_Dump.
  - apply ref_as_int_range.
  - apply ref_as_int_encode.
  - by intros [].
  - done.
  - intros d. unfold ref_as_double, ref_encode_double. apply text_float_text.
Qed.

End ReferenceLaws.

(** ** Pointers into a vector that grows *)

Section Growth.
Context `{L : StdLib}.

(** While the vector has room for one more element per update, nothing is
    reallocated and no write goes through a dangling pointer. *)
Lemma apply_updates_with_room joint_to_id strict updates s :
  e_buffer s = 0%nat →
  (∀ i p, id2dxl s !! i = Some p → buffer p = 0%nat) →
  (length (data (e_dxl s)) + length updates ≤ capacity (e_dxl s))%nat →
  apply_updates joint_to_id strict updates s ≠ Dangling.
Proof.
  revert s. induction updates as [|[j q] rest IH]; intros s Hbuf Hptr Hroom; simpl.
  { done. }
  simpl in Hroom. destruct (joint_to_id !! j) as [i|].
  - destruct (id2dxl s !! i) as [p|] eqn:Hp.
    + rewrite bool_decide_eq_true_2 by (rewrite Hbuf; by apply (Hptr i)).
      apply IH; simpl; [done..|]. rewrite length_alter. lia.
    + assert (needs_realloc (e_dxl s) = false) as Hfit.
      { unfold needs_realloc. apply bool_decide_eq_false_2. lia. }
      apply IH; simpl; rewrite ?Hfit.
      * done.
      * intros i' p'. destruct (decide (i = i')) as [<-|Hne].
        -- rewrite lookup_insert_eq. by intros [= <-].
        -- rewrite lookup_insert_ne by done. apply Hptr.
      * unfold push_back. rewrite Hfit. simpl. rewrite length_app. simpl. lia.
  - destruct strict; [done|]. apply IH; [done..|lia].
Qed.

(** With a vector that takes capacity 1 at its first element, in whichever
    order the two updates are visited, one of the two one-joint frames makes
    [editJoints] append the missing id first, which moves the vector, and
    then write the present id through the pointer taken before the move. *)
Lemma some_frame_dangles :
  vector_grow 0 = 1%nat →
  editJoints "pose" two_updates false (one_joint_editor 0) = UndefinedBehaviour ∨
  editJoints "pose" two_updates false (one_joint_editor 1) = UndefinedBehaviour.
Proof.
  intros Hgrow.
  assert (umap_order two_updates = [("rotate_1", 0.75%float); ("rotate_0", 0.5%float)] ∨
          umap_order two_updates = [("rotate_0", 0.5%float); ("rotate_1", 0.75%float)])
    as [Horder|Horder].
  { apply Permutation_length_2_inv. symmetry. apply umap_order_perm. }
  - left. unfold editJoints. rewrite Horder.
    unfold edit_in_order, one_joint_editor, push_back. simpl.
    rewrite Hgrow. reflexivity.
  - right. unfold editJoints. rewrite Horder.
    unfold edit_in_order, one_joint_editor, push_back. simpl.
    rewrite Hgrow. reflexivity.
Qed.

(** The same with a third update whose name the mapping does not have:
    the lenient call skips it wherever it is visited, and the two others
    meet as before. *)
Lemma some_frame_dangles_with_unknown_name :
  vector_grow 0 = 1%nat →
  editJoints "pose" three_updates false (one_joint_editor 0) = UndefinedBehaviour ∨
  editJoints "pose" three_updates false (one_joint_editor 1) = UndefinedBehaviour.
Proof.
  intros Hgrow.
  assert (filter (resolvable default_joint_to_id) (umap_order three_updates) =
            [("rotate_1", 0.75%float); ("rotate_0", 0.5%float)] ∨
          filter (resolvable default_joint_to_id) (umap_order three_updates) =
            [("rotate_0", 0.5%float); ("rotate_1", 0.75%float)])
    as [Horder|Horder].
  { apply Permutation_length_2_inv. symmetry.
    rewrite (umap_order_perm three_updates). vm_compute. reflexivity. }
  - left. unfold editJoints, edit_in_order, one_joint_editor, push_back. simpl.
    rewrite apply_updates_skips_unresolved, Horder. simpl.
    rewrite Hgrow. reflexivity.
  - right. unfold editJoints, edit_in_order, one_joint_editor, push_back. simpl.
    rewrite apply_updates_skips_unresolved, Horder. simpl.
    rewrite Hgrow. reflexivity.
Qed.

(** In whichever order the two updates are visited, one of the two frames
    with a duplicated id makes [editJoints] append the id it lacks first,
    which moves the full vector, and then write the duplicated id through
    the pointer taken before the move. *)
Lemma some_duplicate_frame_dangles :
  editJoints "f1" duplicate_updates false Samples.with_twice = UndefinedBehaviour ∨
  editJoints "f1" duplicate_updates false Samples.with_mirrored = UndefinedBehaviour.
Proof.
  assert (umap_order duplicate_updates =
            [("rotate_5", 0.125%float); ("rotate_1", 0.875%float)] ∨
          umap_order duplicate_updates =
            [("rotate_1", 0.875%float); ("rotate_5", 0.125%float)])
    as [Horder|Horder].
  { apply Permutation_length_2_inv. symmetry.
    rewrite (umap_order_perm duplicate_updates). vm_compute. reflexivity. }
  - left. unfold editJoints. rewrite Horder. reflexivity.
  - right. unfold editJoints. rewrite Horder. reflexivity.
Qed.

End Growth.

(** C5, at an input where the code leaves the claim.  The file holds one
    frame whose only joint has id 0; the updates name [rotate_1] (id 1, not in
    the frame) and [rotate_0] (id 0, in the frame), and the map is visited
    with [rotate_1] first.  The load succeeds; the edit appends id 1, which
    reallocates the vector of capacity 1, and then writes the position of
    id 0 through the pointer into the buffer the vector has left: the entry
    with id 0 is not overwritten in place, the behaviour is undefined. *)
Theorem edit_after_reallocation_is_undefined :
  let document :=
    YSeq [YMap [(YScalar "time", YScalar "1"); (YScalar "name", YScalar "pose");
                (YScalar "dxl",
                 YSeq [YMap [(YScalar "id", YScalar "0");
                             (YScalar "position", encode_double 0.25%float)]])]] in
  let fs := mkFileSystem {[ "motion.yaml" := Dump document ]} ∅ in
  loadFromFile fs "motion.yaml" MotionEditor_default = Returns (one_joint_editor 0) ∧
  umap_order two_updates = [("rotate_1", 0.75%float); ("rotate_0", 0.5%float)] ∧
  editJoints "pose" two_updates false (one_joint_editor 0) = UndefinedBehaviour.
Proof. vm_compute. done. Qed.

(** C7, at an input where the code leaves the claim.  The same file and
    frame; the updates name [rotate_1] (id 1, not in the frame), [rotate_0]
    (id 0, in the frame) and [totally_unknown_joint], which the mapping
    does not resolve, and the map is visited in that order.  The claim has
    the lenient call skip the unresolved pair, apply the two others and
    return, and the strict call fail with the unknown-joint error.  In the
    code both calls append id 1, which reallocates the vector of capacity
    1, and then write the position of id 0 through the pointer into the
    buffer the vector has left: the resolvable pair of [rotate_0] is not
    applied, the lenient call does not return and the strict call does not
    reach its throw; the behaviour of both is undefined. *)
Theorem unresolved_name_edit_is_undefined :
  let document :=
    YSeq [YMap [(YScalar "time", YScalar "1"); (YScalar "name", YScalar "pose");
                (YScalar "dxl",
                 YSeq [YMap [(YScalar "id", YScalar "0");
                             (YScalar "position", encode_double 0.25%float)]])]] in
  let fs := mkFileSystem {[ "motion.yaml" := Dump document ]} ∅ in
  let me := one_joint_editor 0 in
  loadFromFile fs "motion.yaml" MotionEditor_default = Returns me ∧
  joint_to_id_ me !! "totally_unknown_joint" = None ∧
  umap_order three_updates =
    [("rotate_1", 0.75%float); ("rotate_0", 0.5%float);
     ("totally_unknown_joint", (-0.11)%float)] ∧
  editJoints "pose" three_updates false me = UndefinedBehaviour ∧
  editJoints "pose" three_updates true me = UndefinedBehaviour.
Proof. vm_compute. done. Qed.

(** C10, at an input where the code leaves the claim.  The file holds one
    frame whose joints have the ids 1, 3, 1, 2, in a vector that is full
    (four elements, capacity 4); the last entry with id 1 is the third.
    The updates name [rotate_5] (id 5, not in the frame) and [rotate_1]
    (id 1), and the map is visited with [rotate_5] first.  The claim has
    the update of [rotate_1] overwrite the third entry.  In the code the
    load succeeds; the edit appends id 5, which reallocates the vector, and
    then writes the position of id 1 through the pointer to the third entry
    of the buffer the vector has left: the last entry with id 1 is not
    overwritten, the behaviour is undefined. *)
Theorem duplicate_id_edit_is_undefined :
  loadFromFile (Samples.file_of Samples.twice_document) "motion.yaml" MotionEditor_default
    = Returns Samples.with_twice ∧
  last_index 1 (data (dxl Samples.twice)) = Some 2%nat ∧
  umap_order duplicate_updates =
    [("rotate_5", 0.125%float); ("rotate_1", 0.875%float)] ∧
  editJoints "f1" duplicate_updates false Samples.with_twice = UndefinedBehaviour.
Proof. vm_compute. done. Qed.

(** ** Concrete runs, in the reference model of the libraries *)

Module Runs.
Import Samples.

Example load_good_document :
  loadFromFile (file_of good_document) "motion.yaml" MotionEditor_default = Returns loaded.
Proof. vm_compute. done. Qed.

Example edit_known_and_unknown_lenient :
  editJoints "f1" (<["rotate_1" := 0.5%float]> (<["rotate_7" := 0.125%float]> ∅)) false loaded
  = Returns (mkMotionEditor (meta_blobs_ loaded)
               [with_dxl f1 (Vector [mkDxlValue 1 0.5; mkDxlValue 22 0.5] 2)]
               default_joint_to_id).
Proof. vm_compute. done. Qed.

Example edit_appends_new_id :
  editJoints "f1" {[ "rotate_3" := 0.125%float ]} false loaded
  = Returns (mkMotionEditor (meta_blobs_ loaded)
               [with_dxl f1 (Vector [mkDxlValue 1 0.25; mkDxlValue 22 0.5; mkDxlValue 3 0.125] 4)]
               default_joint_to_id).
Proof. vm_compute. done. Qed.

Lemma first_named_head f rest : first_named (f :: rest) (name f) 0 f.
Proof. split; [done|]. split; [done|]. intros k' g Hlt. lia. Qed.



Lemma load_save_load_frames_witness :
  ∃ fs', saveToFile loaded "copy.yaml" (file_of good_document) = Value fs' ∧
    ∀ me2, ∃ me3, loadFromFile fs' "copy.yaml" me2 = Returns me3 ∧
      frames_ me3 = frames_ loaded ∧ meta_blobs_ me3 = meta_blobs_ loaded.
Proof.
  apply (load_save_load_frames (file_of good_document) "motion.yaml" "copy.yaml"
           MotionEditor_default loaded).
  - vm_compute. done.
  - simpl. apply not_elem_of_empty.
Defined.

Lemma editJoints_missing_frame_witness :
  (∀ f, f ∈ frames_ loaded → name f ≠ "nonexistent") ∧
  editJoints "nonexistent" {[ "rotate_1" := 0.5%float ]} true loaded =
  Throws (runtime_error "MotionEditor: step not found: nonexistent") loaded.
Proof.
  assert (∀ f, f ∈ frames_ loaded → name f ≠ "nonexistent") as Hno.
  { intros f Hf. apply list_elem_of_singleton in Hf as ->. done. }
  split; [exact Hno|].
  exact (editJoints_missing_frame "nonexistent" {[ "rotate_1" := 0.5%float ]} true loaded Hno).
Defined.

Example unresolved_joint_names_run :
  let updates : gmap string float :=
    <["rotate_1" := 0.5%float]> (<["totally_unknown_joint" := 0.125%float]> ∅) in
  first_named (frames_ loaded) "f1" 0 f1 ∧
  editJoints "f1" updates false loaded =
    edit_in_order "f1"
      (filter (resolvable (joint_to_id_ loaded)) (umap_order updates)) false loaded ∧
  (∀ e me', editJoints "f1" updates false loaded ≠ Throws e me') ∧
  ∃ before j q after,
    umap_order updates = before ++ (j, q) :: after ∧
    editJoints "f1" updates true loaded =
      match edit_in_order "f1" before false loaded with
      | Returns me1 => Throws (unknown_joint j) me1
      | r => r
      end.
Proof.
  intros updates.
  destruct (unresolved_joint_names "f1" updates loaded 0 f1 (first_named_head f1 []))
    as [[Hlenient Hquiet] Hstrict].
  split; [apply (first_named_head f1 [])|]. split; [exact Hlenient|].
  split; [exact Hquiet|].
  destruct Hstrict as (before & j & q & after & Horder & _ & _ & Hthrows).
  { exists "totally_unknown_joint", 0.125%float. split; vm_compute; reflexivity. }
  exists before, j, q, after. split; [exact Horder | exact Hthrows].
Qed.

Example duplicate_ids_update_last_entry_run :
  is_last (data (dxl twice)) 1 2 ∧
  ∃ me', editJoints "f1" {[ "rotate_1" := 0.125%float ]} false with_twice = Returns me' ∧
    ∃ f', frames_ me' !! 0%nat = Some f' ∧
      data (dxl f') !! 2%nat = Some (mkDxlValue 1 0.125) ∧
      data (dxl f') !! 0%nat = Some (mkDxlValue 1 0.25).
Proof.
  assert (is_last (data (dxl twice)) 1 2) as Hlast.
  { apply last_index_Some. vm_compute. reflexivity. }
  split; [exact Hlast|].
  destruct (duplicate_ids_update_last_entry "f1" {[ "rotate_1" := 0.125%float ]} false
              with_twice 0 twice 1 "rotate_1" 0.125%float 2
              (first_named_head twice []) Hlast) as [Hedit Hreturns].
  - vm_compute. reflexivity.
  - vm_compute. reflexivity.
  - destruct Hreturns as [me' Hme'].
    { intros j' q' Hj'. apply lookup_singleton_Some in Hj' as [<- _].
      exists 1, (mkDxlValue 1 0.25).
      split; [vm_compute; reflexivity|]. split; [left | reflexivity]. }
    exists me'. split; [exact Hme'|].
    destruct (Hedit me' Hme') as (f' & Hf' & _ & Hlast' & Hothers).
    exists f'. split; [exact Hf'|]. split.
    + apply Hlast'. intros j' q' Hj' _.
      apply lookup_singleton_Some in Hj' as [Hj' _]. by symmetry.
    + apply Hothers; [lia | reflexivity | reflexivity].
Qed.

End Runs.

(** * Further properties of the editor *)

(** ** Lookup by name *)

Lemma listStepNames_names me : listStepNames me = name <$> frames_ me.
Proof.
  unfold listStepNames. generalize (frames_ me). intros frames.
  assert (∀ acc, foldl (λ names f, names ++ [name f]) acc frames
                 = acc ++ (name <$> frames)) as Hgen.
  { induction frames as [|f rest IH]; intros acc; simpl.
    - by rewrite app_nil_r.
    - by rewrite IH, <- app_assoc. }
  apply (Hgen []).
Qed.

Lemma first_named_or_absent frames step_name :
  (∀ f, f ∈ frames → name f ≠ step_name) ∨ ∃ k f, first_named frames step_name k f.
Proof.
  induction frames as [|g rest IH].
  - left. intros f Hf. by apply elem_of_nil in Hf.
  - destruct (decide (name g = step_name)) as [Hg|Hg].
    + right. exists 0%nat, g. split; [done|]. split; [done|]. intros k' h Hlt. lia.
    + destruct IH as [Hno|(k & f & Hk & Hname & Hfirst)].
      * left. intros f [->|Hf]%elem_of_cons; [done | by apply Hno].
      * right. exists (S k), f. split; [done|]. split; [done|].
        intros [|k'] h Hlt Hh; simpl in Hh; [congruence|].
        apply (Hfirst k'); [lia | done].
Qed.

(** X1. [findFrameIndexByName] returns -1 exactly when no frame has the
    name; otherwise it returns the index of the first frame of that name,
    which lies within the vector of frames. *)
Theorem findFrameIndexByName_first_or_minus_one me step_name :
  (findFrameIndexByName me step_name = -1 ∧
   ∀ f, f ∈ frames_ me → name f ≠ step_name) ∨
  (∃ k f, findFrameIndexByName me step_name = Z.of_nat k ∧
     (k < length (frames_ me))%nat ∧ first_named (frames_ me) step_name k f).
Proof.
  unfold findFrameIndexByName.
  destruct (first_named_or_absent (frames_ me) step_name) as [Hno|(k & f & Hf)].
  - left. split; [by apply find_from_absent | done].
  - right. exists k, f. split; [by rewrite (find_from_first 0 _ _ k f)|].
    split; [|done]. destruct Hf as [Hk _]. by apply lookup_lt_Some in Hk.
Qed.

Lemma getFrame_found me step_name k f :
  first_named (frames_ me) step_name k f →
  getFrame me step_name = has_value (copy_frame f).
Proof.
  intros Hf. unfold getFrame, findFrameIndexByName.
  rewrite (find_from_first 0 _ _ k f Hf).
  rewrite bool_decide_eq_false_2 by lia.
  replace (Z.to_nat (0 + Z.of_nat k)) with k by lia.
  by destruct Hf as [-> _].
Qed.

Lemma getFrame_absent me step_name :
  (∀ f, f ∈ frames_ me → name f ≠ step_name) → getFrame me step_name = nullopt.
Proof.
  intros Hno. unfold getFrame, findFrameIndexByName.
  by rewrite find_from_absent.
Qed.

(** X2. [getFrame] never reads outside the vector of frames.  It yields
    [nullopt] exactly when the name is not among [listStepNames], and
    otherwise a copy of the first frame of that name: the same fields and
    the same joints in the same order. *)
Theorem getFrame_first_match me step_name :
  getFrame me step_name ≠ out_of_range ∧
  (getFrame me step_name = nullopt ↔ step_name ∉ listStepNames me) ∧
  (∀ g, getFrame me step_name = has_value g ↔
     ∃ k f, first_named (frames_ me) step_name k f ∧
       time g = time f ∧ delay g = delay f ∧ repeat g = repeat f ∧
       name g = step_name ∧ selected g = selected f ∧
       data (dxl g) = data (dxl f) ∧ g = copy_frame f).
Proof.
  rewrite listStepNames_names.
  destruct (first_named_or_absent (frames_ me) step_name) as [Hno|(k & f & Hf)].
  - rewrite (getFrame_absent _ _ Hno). split; [done|]. split.
    + split; [|done]. intros _ (f & Hname & Hin)%list_elem_of_fmap.
      by destruct (Hno f Hin).
    + intros g. split; [done|]. intros (k & f & (Hk & Hname & _) & _).
      apply list_elem_of_lookup_2 in Hk. by destruct (Hno f Hk).
  - rewrite (getFrame_found _ _ _ _ Hf). split; [done|]. split.
    + split; [done|]. intros Hnot. destruct Hnot.
      destruct Hf as (Hk & Hname & _). apply list_elem_of_fmap.
      exists f. split; [done|]. by apply list_elem_of_lookup_2 in Hk.
    + intros g. split.
      * intros [= <-]. exists k, f. destruct Hf as (Hk & Hname & Hfirst).
        repeat split; done.
      * intros (k' & f' & Hf' & _ & _ & _ & _ & _ & _ & ->).
        assert (k' = k) as ->.
        { destruct Hf as (Hk & Hn & Hfirst), Hf' as (Hk' & Hn' & Hfirst').
          destruct (decide (k' < k)%nat); [by destruct (Hfirst k' f')|].
          destruct (decide (k < k')%nat); [by destruct (Hfirst' k f)|]. lia. }
        destruct Hf as [Hk _], Hf' as [Hk' _]. congruence.
Qed.

(** ** What an edit leaves alone *)

Lemma joint_ids_alter q k l : joint_ids (alter (set_position q) k l) = joint_ids l.
Proof.
  unfold joint_ids. revert k. induction l as [|dv rest IH]; intros k; [done|].
  destruct k as [|k]; simpl; [done|]. f_equal. apply IH.
Qed.

Lemma store_frame_same k f me :
  frames_ me !! k = Some f → store_frame k (with_dxl f (dxl f)) me = me.
Proof.
  intros Hk. unfold store_frame.
  assert (with_dxl f (dxl f) = f) as -> by (by destruct f).
  rewrite list_insert_id by done. by destruct me.
Qed.

Section FrameEffect.
Context `{L : StdLib}.

Lemma apply_update_keeps_ids joint_to_id strict s u s' :
  stopped_in (apply_update joint_to_id strict s u) s' →
  joint_ids (data (e_dxl s)) `prefix_of` joint_ids (data (e_dxl s')).
Proof.
  unfold apply_update. destruct u as [j q].
  destruct (joint_to_id !! j) as [i|].
  - destruct (id2dxl s !! i) as [p|].
    + case_bool_decide.
      * intros [[= <-]|[e [=]]]. simpl. by rewrite joint_ids_alter.
      * by intros [[=]|[e [=]]].
    + intros [[= <-]|[e [=]]]. simpl. rewrite data_push_back.
      unfold joint_ids. rewrite fmap_app. by apply prefix_app_r.
  - destruct strict.
    + by intros [[=]|[e [= _ <-]]].
    + by intros [[= <-]|[e [=]]].
Qed.

Lemma apply_updates_keep_ids joint_to_id strict updates s s' :
  stopped_in (apply_updates joint_to_id strict updates s) s' →
  joint_ids (data (e_dxl s)) `prefix_of` joint_ids (data (e_dxl s')).
Proof.
  revert s. induction updates as [|u rest IH]; intros s; simpl.
  - by intros [[= <-]|[e [=]]].
  - destruct (apply_update joint_to_id strict s u) as [s1|e1 s1|] eqn:Hstep.
    + intros Hrest. etrans; [|by apply IH].
      apply (apply_update_keeps_ids joint_to_id strict s u). left. done.
    + intros [[=]|[e [= _ <-]]].
      apply (apply_update_keeps_ids joint_to_id strict s u). right. by exists e1.
    + by intros [[=]|[e [=]]].
Qed.

(** X3. A call of [editJoints] that returns or throws leaves the blobs, the
    joint mapping, the number and the names of the frames as they were; it
    changes no frame but the first one of the given name, and in that frame
    it keeps [time], [delay], [repeat], [name] and [selected] and the ids of
    the joints it had, in their order: joints are only added at the end,
    never removed, reordered or given another id. *)
Theorem editJoints_changes_one_frame step_name updates strict me me' :
  editJoints step_name updates strict me = Returns me' ∨
  (∃ e, editJoints step_name updates strict me = Throws e me') →
  meta_blobs_ me' = meta_blobs_ me ∧
  joint_to_id_ me' = joint_to_id_ me ∧
  listStepNames me' = listStepNames me ∧
  length (frames_ me') = length (frames_ me) ∧
  ∀ k f, frames_ me !! k = Some f →
    ∃ f', frames_ me' !! k = Some f' ∧
      time f' = time f ∧ delay f' = delay f ∧ repeat f' = repeat f ∧
      name f' = name f ∧ selected f' = selected f ∧
      joint_ids (data (dxl f)) `prefix_of` joint_ids (data (dxl f')) ∧
      (findFrameIndexByName me step_name ≠ Z.of_nat k → f' = f).
Proof.
  intros Hcall. rewrite !listStepNames_names.
  assert (me' = me ∨ ∃ k0 f0 s', first_named (frames_ me) step_name k0 f0 ∧
            stopped_in (apply_updates (joint_to_id_ me) strict (umap_order updates)
                          (start_edit f0)) s' ∧
            me' = store_frame k0 (with_dxl f0 (e_dxl s')) me) as [->|Hfound].
  { unfold editJoints in Hcall.
    destruct (first_named_or_absent (frames_ me) step_name) as [Hno|(k0 & f0 & Hf0)].
    - left. unfold edit_in_order, findFrameIndexByName in Hcall.
      rewrite find_from_absent in Hcall by done. simpl in Hcall.
      destruct Hcall as [[=]|[e [= _ <-]]]. done.
    - right. exists k0, f0. rewrite (edit_in_order_found _ _ _ _ k0 f0 Hf0) in Hcall.
      fold (start_edit f0) in Hcall.
      destruct (apply_updates _ _ _ _) as [s1|e1 s1|]; simpl in Hcall.
      + destruct Hcall as [[= <-]|[e [=]]]. exists s1. split; [done|]. split; [by left|done].
      + destruct Hcall as [[=]|[e [= _ <-]]]. exists s1. split; [done|].
        split; [right; by exists e1 | done].
      + by destruct Hcall as [[=]|[e [=]]]. }
  { repeat split; try done. intros k f Hk. exists f. repeat split; done. }
  destruct Hfound as (k0 & f0 & s' & Hf0 & Hstop & ->). simpl.
  destruct Hf0 as (Hk0 & Hname0 & Hfirst0).
  split; [done|]. split; [done|]. split.
  { rewrite list_fmap_insert. simpl. apply list_insert_id.
    by rewrite list_lookup_fmap, Hk0. }
  split; [apply length_insert|].
  intros k f Hk. destruct (decide (k = k0)) as [->|Hne].
  - assert (f = f0) as -> by congruence.
    exists (with_dxl f0 (e_dxl s')). split.
    { apply list_lookup_insert_eq. by apply lookup_lt_Some in Hk0. }
    simpl. repeat (split; [done|]). split.
    + by apply apply_updates_keep_ids in Hstop.
    + intros Hidx. destruct Hidx. unfold findFrameIndexByName.
      by rewrite (find_from_first 0 _ _ k0 f0).
  - exists f. split; [by rewrite list_lookup_insert_ne|].
    repeat (split; [done|]). done.
Qed.

(** X4. On a frame that exists, a call of [editJoints] without [strict]
    whose updates name no joint of the mapping (an empty map among them)
    returns and leaves the editor exactly as it was; so does a strict call
    with an empty map. *)
Theorem editJoints_nothing_to_apply step_name updates me k f :
  first_named (frames_ me) step_name k f →
  (∀ j q, updates !! j = Some q → joint_to_id_ me !! j = None) →
  editJoints step_name updates false me = Returns me ∧
  (updates = ∅ → editJoints step_name updates true me = Returns me).
Proof.
  intros Hf Hnone. unfold editJoints.
  rewrite !(edit_in_order_found _ _ _ _ k f Hf). split.
  - rewrite apply_updates_skips_unresolved.
    rewrite (filter_none (resolvable (joint_to_id_ me))).
    + simpl. f_equal. apply store_frame_same. by destruct Hf.
    + apply Forall_forall. intros [j q] Hin [i Hi]. simpl in Hi.
      apply umap_order_elem_of in Hin. by rewrite (Hnone j q Hin) in Hi.
  - intros ->. assert (umap_order (∅ : gmap string float) = []) as ->.
    { apply Permutation_nil_r. rewrite umap_order_perm. by rewrite map_to_list_empty. }
    simpl. f_equal. apply store_frame_same. by destruct Hf.
Qed.

End FrameEffect.

(** ** Edits that are defined, and what they compute *)

Section DefinedEdits.
Context `{L : StdLib}.

Lemma editJoints_Returns_inv step_name updates strict me me' k f :
  first_named (frames_ me) step_name k f →
  editJoints step_name updates strict me = Returns me' →
  ∃ s', apply_updates (joint_to_id_ me) strict (umap_order updates) (start_edit f)
          = Applied s' ∧
        data (e_dxl s') =
          foldl (spec_update (joint_to_id_ me)) (data (dxl f)) (umap_order updates) ∧
        me' = store_frame k (with_dxl f (e_dxl s')) me ∧
        frames_ me' !! k = Some (with_dxl f (e_dxl s')).
Proof.
  intros Hf. unfold editJoints. rewrite (edit_in_order_found _ _ _ _ k f Hf).
  fold (start_edit f).
  destruct (apply_updates _ _ _ _) as [s'| |] eqn:Hrun; simpl; [|done..].
  intros [= <-]. exists s'. split; [done|]. split.
  { by apply apply_updates_refines in Hrun as [-> _]; [|apply start_edit_ok]. }
  split; [done|]. simpl. apply list_lookup_insert_eq.
  destruct Hf as [Hk _]. by apply lookup_lt_Some in Hk.
Qed.

Lemma length_umap_order (updates : gmap string float) :
  length (umap_order updates) = size updates.
Proof. rewrite umap_order_perm. apply length_map_to_list. Qed.

(** With room for one more element per update the capacity never changes. *)
Lemma apply_updates_room_capacity joint_to_id strict updates s s' :
  (length (data (e_dxl s)) + length updates ≤ capacity (e_dxl s))%nat →
  stopped_in (apply_updates joint_to_id strict updates s) s' →
  capacity (e_dxl s') = capacity (e_dxl s).
Proof.
  revert s. induction updates as [|[j q] rest IH]; intros s Hroom; simpl.
  { by intros [[= <-]|[e [=]]]. }
  simpl in Hroom. destruct (joint_to_id !! j) as [i|].
  - destruct (id2dxl s !! i) as [p|].
    + case_bool_decide; [|by intros [[=]|[e [=]]]].
      intros Hstop. apply IH in Hstop; [done|]. simpl. rewrite length_alter. lia.
    + assert (needs_realloc (e_dxl s) = false) as Hfit.
      { unfold needs_realloc. apply bool_decide_eq_false_2. lia. }
      intros Hstop. apply IH in Hstop.
      * rewrite Hstop. simpl. unfold push_back. by rewrite Hfit.
      * simpl. unfold push_back. rewrite Hfit. simpl. rewrite length_app. simpl. lia.
  - destruct strict.
    + by intros [[=]|[e [= _ <-]]].
    + intros Hstop. apply IH in Hstop; [done | lia].
Qed.

(** X5. On a frame that exists, every call of [editJoints] that returns has
    applied the updates one after the other, in the order the map is
    visited: a resolved id the frame has gets its position overwritten, one
    it lacks is appended, an unresolved name changes nothing.  When the
    frame's vector has room for one more joint per update, no call runs
    into undefined behaviour, a call without [strict] returns, and the
    vector keeps its capacity. *)
Theorem editJoints_applies_updates_in_order step_name updates strict me k f :
  first_named (frames_ me) step_name k f →
  (∀ me', editJoints step_name updates strict me = Returns me' →
     ∃ f', frames_ me' !! k = Some f' ∧
       data (dxl f') =
         foldl (spec_update (joint_to_id_ me)) (data (dxl f)) (umap_order updates)) ∧
  ((length (data (dxl f)) + size updates ≤ capacity (dxl f))%nat →
     editJoints step_name updates strict me ≠ UndefinedBehaviour ∧
     ∃ me' f', editJoints step_name updates false me = Returns me' ∧
       frames_ me' !! k = Some f' ∧ capacity (dxl f') = capacity (dxl f)).
Proof.
  intros Hf. split.
  - intros me' Hret.
    destruct (editJoints_Returns_inv _ _ _ _ _ _ _ Hf Hret) as (s' & _ & Hdata & _ & Hk).
    by exists (with_dxl f (e_dxl s')).
  - intros Hroom. rewrite <- length_umap_order in Hroom.
    assert (∀ strict', apply_updates (joint_to_id_ me) strict' (umap_order updates)
                         (start_edit f) ≠ Dangling) as Hdef.
    { intros strict'. apply apply_updates_with_room; [done| |done].
      intros i p. simpl. apply index_dxl_buffer. intros ? ?. by rewrite lookup_empty. }
    unfold editJoints. rewrite !(edit_in_order_found _ _ _ _ k f Hf).
    fold (start_edit f). split.
    + specialize (Hdef strict). by destruct (apply_updates _ strict _ _).
    + specialize (Hdef false).
      destruct (apply_updates _ false _ _) as [s'|e s'|] eqn:Hrun; [| |done].
      * eexists _, (with_dxl f (e_dxl s')). split; [done|]. split.
        { simpl. apply list_lookup_insert_eq. destruct Hf as [Hk _].
          by apply lookup_lt_Some in Hk. }
        simpl. apply (apply_updates_room_capacity (joint_to_id_ me) false
                        (umap_order updates) (start_edit f)); [done|].
        left. done.
      * by apply apply_updates_lenient_no_raise in Hrun.
Qed.

(** Each update adds a joint exactly when its id is new. *)
Lemma length_spec_updates joint_to_id updates l :
  length (foldl (spec_update joint_to_id) l updates) =
  (length l +
   size (list_to_set (resolved_ids joint_to_id updates) ∖ list_to_set (joint_ids l)
           : gset Z))%nat.
Proof.
  revert l. induction updates as [|u rest IH]; intros l; simpl.
  { rewrite difference_disjoint_L by apply disjoint_empty_l.
    rewrite size_empty. lia. }
  rewrite IH. unfold spec_update.
  destruct (joint_to_id !! u.1) as [i|] eqn:Hu; simpl; [|done].
  destruct (last_index i l) as [k|] eqn:Hlast.
  - rewrite length_alter, joint_ids_alter. f_equal. f_equal.
    apply last_index_Some in Hlast as [(dv & Hdv & Hid) _].
    assert (i ∈ (list_to_set (joint_ids l) : gset Z)) as HiI.
    { apply elem_of_list_to_set, list_elem_of_fmap. exists dv. split; [done|].
      by apply list_elem_of_lookup_2 in Hdv. }
    revert HiI. generalize (list_to_set (joint_ids l) : gset Z).
    generalize (list_to_set (resolved_ids joint_to_id rest) : gset Z).
    clear. intros R I HiI. set_solver.
  - assert (i ∉ joint_ids l) as Hnew.
    { intros (dv & Hid & Hin)%list_elem_of_fmap.
      by destruct (proj1 (last_index_None i l) Hlast dv Hin). }
    rewrite length_app. simpl. unfold joint_ids at 1. rewrite fmap_app. simpl.
    fold (joint_ids l). rewrite list_to_set_app_L. simpl.
    set (Rs := list_to_set (resolved_ids joint_to_id rest) : gset Z).
    set (Is := list_to_set (joint_ids l) : gset Z).
    assert (i ∉ Is) as HiI by (unfold Is; by rewrite elem_of_list_to_set).
    clearbody Rs Is. clear IH Hnew Hlast Hu.
    assert (({[i]} ∪ Rs) ∖ Is = {[i]} ∪ Rs ∖ (Is ∪ ({[i]} ∪ ∅))) as ->.
    { apply set_eq. intros x.
      rewrite !elem_of_union, !elem_of_difference, !elem_of_union, elem_of_singleton.
      rewrite elem_of_empty. destruct (decide (x = i)) as [->|]; tauto. }
    assert (({[i]} : gset Z) ## Rs ∖ (Is ∪ ({[i]} ∪ ∅))) as Hdisj.
    { intros x Hx [_ Hnot]%elem_of_difference. apply Hnot.
      apply elem_of_union. right. apply elem_of_union. by left. }
    rewrite (size_union _ _ Hdisj), size_singleton. lia.
Qed.

(** X6. A call of [editJoints] that returns has added to the frame one
    joint for each distinct id that the names of the updates resolve to and
    that the frame did not have, and no other. *)
Theorem editJoints_joint_count step_name updates strict me me' k f :
  first_named (frames_ me) step_name k f →
  editJoints step_name updates strict me = Returns me' →
  ∃ f', frames_ me' !! k = Some f' ∧
    length (data (dxl f')) =
    (length (data (dxl f)) +
     size (list_to_set (resolved_ids (joint_to_id_ me) (umap_order updates))
             ∖ list_to_set (joint_ids (data (dxl f))) : gset Z))%nat.
Proof.
  intros Hf Hret.
  destruct (editJoints_Returns_inv _ _ _ _ _ _ _ Hf Hret) as (s' & _ & Hdata & _ & Hk).
  exists (with_dxl f (e_dxl s')). split; [done|]. simpl.
  rewrite Hdata. apply length_spec_updates.
Qed.

End DefinedEdits.

(** ** Running an edit again *)

Section FinalPositions.
Variable joint_to_id : gmap string Z.

Lemma final_position_None updates i :
  final_position joint_to_id updates i = None ↔
  ∀ u, u ∈ updates → joint_to_id !! u.1 ≠ Some i.
Proof.
  induction updates as [|u rest IH]; simpl.
  - split; [intros _ u Hu; by apply elem_of_nil in Hu | done].
  - destruct (final_position joint_to_id rest i) as [q|].
    + split; [done|]. intros Hall. destruct IH as [_ IH].
      discriminate IH. intros u' Hu'. apply Hall. by right.
    + destruct (decide (joint_to_id !! u.1 = Some i)) as [Hu|Hu].
      * split; [done|]. intros Hall. destruct (Hall u); [left | done].
      * split; [|done]. intros _ u' [->|Hu']%elem_of_cons; [done|]. by apply IH.
Qed.

Lemma final_position_Some updates i q :
  final_position joint_to_id updates i = Some q →
  ∃ j, (j, q) ∈ updates ∧ joint_to_id !! j = Some i.
Proof.
  induction updates as [|[j0 q0] rest IH]; simpl; [done|].
  destruct (final_position joint_to_id rest i) as [q'|].
  - intros [= ->]. destruct (IH eq_refl) as (j & Hin & Hj).
    exists j. split; [by right | done].
  - destruct (decide (joint_to_id !! j0 = Some i)) as [Hu|Hu]; [|done].
    intros [= <-]. exists j0. split; [left | done].
Qed.

Lemma final_position_resolved updates j q i :
  (j, q) ∈ updates → joint_to_id !! j = Some i →
  is_Some (final_position joint_to_id updates i).
Proof.
  intros Hin Hj. destruct (final_position joint_to_id updates i) eqn:E; [by eexists|].
  by destruct (proj1 (final_position_None updates i) E (j, q) Hin).
Qed.

(** After the updates, the last entry of every resolved id holds the
    position of the last update for that id. *)
Lemma spec_updates_final updates l i q :
  final_position joint_to_id updates i = Some q →
  ∃ k, last_index i (foldl (spec_update joint_to_id) l updates) = Some k ∧
       foldl (spec_update joint_to_id) l updates !! k = Some (mkDxlValue i q).
Proof.
  revert l. induction updates as [|u rest IH]; intros l; simpl; [done|].
  destruct (final_position joint_to_id rest i) as [q'|] eqn:Hrest.
  - intros [= ->]. by apply IH.
  - destruct (decide (joint_to_id !! u.1 = Some i)) as [Hu|Hu]; [|done].
    intros [= <-].
    assert (∃ k, last_index i (spec_update joint_to_id l u) = Some k ∧
                 spec_update joint_to_id l u !! k = Some (mkDxlValue i u.2))
      as (k & Hlast & Hk).
    { unfold spec_update. rewrite Hu.
      destruct (last_index i l) as [k|] eqn:Hl.
      - exists k. rewrite last_index_alter. split; [done|].
        apply last_index_Some in Hl as [(dv & Hdv & Hid) _].
        rewrite list_lookup_alter_eq, Hdv. simpl. unfold set_position. by rewrite Hid.
      - exists (length l). rewrite last_index_snoc. simpl.
        rewrite decide_True by done. split; [done|].
        by rewrite lookup_app_r, Nat.sub_diag by lia. }
    exists k. pose proof (proj1 (final_position_None rest i) Hrest) as Hnone.
    split.
    + by rewrite spec_updates_last_index.
    + by apply spec_updates_keep_other with i.
Qed.

Lemma spec_updates_settle updates l k :
  (∀ u i, u ∈ updates → joint_to_id !! u.1 = Some i → is_Some (last_index i l)) →
  foldl (spec_update joint_to_id) l updates !! k = settle joint_to_id updates l k <$> l !! k.
Proof.
  revert l. induction updates as [|[j q0] rest IH]; intros l Hclosed; simpl.
  { unfold settle. simpl. destruct (l !! k) as [dv|]; simpl; [|done].
    by destruct (decide _). }
  unfold spec_update at 2. simpl.
  destruct (joint_to_id !! j) as [i0|] eqn:Hj.
  - destruct (Hclosed (j, q0) i0) as [k0 Hk0]; [left | done |]. rewrite Hk0.
    rewrite IH.
    2: { intros u i Hu Hi. rewrite last_index_alter. apply (Hclosed u i); [by right | done]. }
    apply last_index_Some in Hk0 as Hlast. destruct Hlast as [(dv0 & Hdv0 & Hid0) _].
    destruct (decide (k = k0)) as [->|Hne].
    + rewrite list_lookup_alter_eq, Hdv0. simpl. f_equal.
      unfold settle. simpl. rewrite last_index_alter, Hid0, Hk0.
      rewrite !decide_True by done.
      by destruct (final_position joint_to_id rest i0).
    + rewrite list_lookup_alter_ne by done.
      destruct (l !! k) as [dv|] eqn:Hdv; simpl; [|done]. f_equal.
      unfold settle. simpl. rewrite last_index_alter.
      destruct (decide (last_index (id dv) l = Some k)) as [Hlk|]; [|done].
      destruct (final_position joint_to_id rest (id dv)); [done|].
      rewrite decide_False; [done|]. rewrite Hj. intros [= Heq].
      rewrite <- Heq in Hlk. congruence.
  - rewrite IH.
    2: { intros u i Hu Hi. apply (Hclosed u i); [by right | done]. }
    destruct (l !! k) as [dv|]; simpl; [|done]. f_equal.
    unfold settle. simpl. destruct (decide _); [|done].
    destruct (final_position joint_to_id rest (id dv)); [done|].
    rewrite decide_False; [done|]. by rewrite Hj.
Qed.

(** Applying the same updates a second time changes nothing. *)
Lemma spec_updates_idempotent updates l :
  let l1 := foldl (spec_update joint_to_id) l updates in
  foldl (spec_update joint_to_id) l1 updates = l1.
Proof.
  intros l1. apply list_eq. intros k. rewrite spec_updates_settle.
  - destruct (l1 !! k) as [dv|] eqn:Hdv; simpl; [|done]. f_equal.
    unfold settle. destruct (decide _) as [Hlast|]; [|done].
    destruct (final_position joint_to_id updates (id dv)) as [q|] eqn:Hfin; [|done].
    destruct (spec_updates_final updates l (id dv) q Hfin) as (k' & Hk' & Hq).
    fold l1 in Hk', Hq. assert (k' = k) as -> by congruence.
    assert (dv = mkDxlValue (id dv) q) as Hdv' by congruence.
    rewrite Hdv' at 2. done.
  - intros [j q] i Hu Hi. simpl in Hi.
    destruct (final_position_resolved updates j q i Hu Hi) as [q' Hq'].
    destruct (spec_updates_final updates l i q' Hq') as (k' & Hk' & _).
    by exists k'.
Qed.

End FinalPositions.

Section Again.
Context `{L : StdLib}.

Lemma apply_updates_strict_resolvable joint_to_id updates s s' :
  apply_updates joint_to_id true updates s = Applied s' →
  Forall (resolvable joint_to_id) updates.
Proof.
  revert s. induction updates as [|[j q] rest IH]; intros s; simpl; [done|].
  destruct (joint_to_id !! j) as [i|] eqn:Hj; [|done].
  intros Hrun. constructor; [by exists i|].
  destruct (id2dxl s !! i) as [p|]; [|by eapply IH].
  case_bool_decide; [by eapply IH | done].
Qed.

(** When every resolved id is in the vector and no unresolved name can
    throw, the loop completes without growing the vector. *)
Lemma apply_updates_settled joint_to_id strict updates s :
  pointers_ok s → e_buffer s = 0%nat →
  (∀ i p, id2dxl s !! i = Some p → buffer p = 0%nat) →
  (∀ u, u ∈ updates →
     match joint_to_id !! u.1 with
     | Some i => is_Some (last_index i (data (e_dxl s)))
     | None => strict = false
     end) →
  ∃ s', apply_updates joint_to_id strict updates s = Applied s' ∧
        capacity (e_dxl s') = capacity (e_dxl s).
Proof.
  revert s. induction updates as [|[j q] rest IH]; intros s Hok Hbuf Hptr Hall; simpl.
  { by eexists. }
  pose proof (Hall (j, q) ltac:(left)) as Hu. simpl in Hu.
  destruct (joint_to_id !! j) as [i|].
  - destruct Hu as [k Hk]. specialize (Hok i) as Hoki. rewrite Hk in Hoki.
    destruct (id2dxl s !! i) as [p|] eqn:Hp; [|done].
    rewrite bool_decide_eq_true_2 by (rewrite Hbuf; by apply (Hptr i)).
    destruct (IH (mkEdit (Vector (alter (set_position q) (index p) (data (e_dxl s)))
                            (capacity (e_dxl s))) (e_buffer s) (id2dxl s)))
      as (s' & Hs' & Hcap); simpl; [|done|done| |by exists s'].
    + intros i'. simpl. rewrite last_index_alter. apply Hok.
    + intros u Hin. specialize (Hall u ltac:(by right)).
      destruct (joint_to_id !! u.1); [|done]. by rewrite last_index_alter.
  - subst strict. apply IH; [done..|]. intros u Hin. apply Hall. by right.
Qed.

(** X7. A call of [editJoints] that returned can be repeated: the same call
    on the editor it left returns again and changes nothing. *)
Theorem editJoints_idempotent step_name updates strict me me1 :
  editJoints step_name updates strict me = Returns me1 →
  editJoints step_name updates strict me1 = Returns me1.
Proof.
  intros Hret.
  destruct (first_named_or_absent (frames_ me) step_name) as [Hno|(k & f & Hf)].
  { unfold editJoints, edit_in_order, findFrameIndexByName in Hret.
    by rewrite find_from_absent in Hret. }
  destruct (editJoints_Returns_inv _ _ _ _ _ _ _ Hf Hret)
    as (s1 & Hrun1 & Hdata1 & -> & Hk1).
  set (f1 := with_dxl f (e_dxl s1)) in *.
  assert (first_named (frames_ (store_frame k f1 me)) step_name k f1) as Hf1.
  { destruct Hf as (Hk & Hname & Hfirst). split; [done|]. split; [done|].
    intros k' g Hlt. simpl. rewrite list_lookup_insert_ne by lia. by apply Hfirst. }
  unfold editJoints. rewrite (edit_in_order_found _ _ _ _ k f1 Hf1).
  fold (start_edit f1). simpl joint_to_id_.
  destruct (apply_updates_settled (joint_to_id_ me) strict (umap_order updates)
              (start_edit f1)) as (s2 & Hrun2 & Hcap2).
  - apply start_edit_ok.
  - done.
  - intros i p. simpl. apply index_dxl_buffer. intros ? ?. by rewrite lookup_empty.
  - intros [j q] Hin. simpl.
    destruct (joint_to_id_ me !! j) as [i|] eqn:Hj.
    + rewrite Hdata1.
      destruct (final_position_resolved (joint_to_id_ me) _ j q i Hin Hj) as [q' Hq'].
      destruct (spec_updates_final (joint_to_id_ me) (umap_order updates)
                  (data (dxl f)) i q' Hq') as (k' & Hk' & _).
      by exists k'.
    + destruct strict; [|done].
      apply apply_updates_strict_resolvable in Hrun1.
      rewrite Forall_forall in Hrun1. destruct (Hrun1 (j, q) Hin) as [i Hi].
      simpl in Hi. congruence.
  - rewrite Hrun2. simpl. f_equal.
    apply apply_updates_refines in Hrun2 as [Hdata2 _]; [|apply start_edit_ok].
    simpl in Hdata2, Hcap2. rewrite Hdata1 in Hdata2.
    rewrite spec_updates_idempotent in Hdata2.
    assert (e_dxl s2 = e_dxl s1) as ->.
    { destruct (e_dxl s2), (e_dxl s1). simpl in *. congruence. }
    unfold store_frame. simpl. rewrite list_insert_insert_eq. done.
Qed.

(** X8. After a call of [editJoints] that returned, [getFrame] shows every
    update that was made: when [j] is the only name of the updates that
    resolves to the id [i], the last joint with id [i] of the frame that
    [getFrame] yields has the position given for [j], whether the frame had
    that id before or not. *)
Theorem editJoints_then_getFrame step_name updates strict me me' j q i :
  editJoints step_name updates strict me = Returns me' →
  updates !! j = Some q → joint_to_id_ me !! j = Some i →
  (∀ j' q', updates !! j' = Some q' → joint_to_id_ me !! j' = Some i → j' = j) →
  ∃ g kl, getFrame me' step_name = has_value g ∧
    is_last (data (dxl g)) i kl ∧ data (dxl g) !! kl = Some (mkDxlValue i q).
Proof.
  intros Hret Hq Hj Honly.
  destruct (first_named_or_absent (frames_ me) step_name) as [Hno|(k & f & Hf)].
  { unfold editJoints, edit_in_order, findFrameIndexByName in Hret.
    by rewrite find_from_absent in Hret. }
  destruct (editJoints_Returns_inv _ _ _ _ _ _ _ Hf Hret)
    as (s1 & Hrun1 & Hdata1 & -> & Hk1).
  set (f1 := with_dxl f (e_dxl s1)) in *.
  assert (first_named (frames_ (store_frame k f1 me)) step_name k f1) as Hf1.
  { destruct Hf as (Hk & Hname & Hfirst). split; [done|]. split; [done|].
    intros k' g Hlt. simpl. rewrite list_lookup_insert_ne by lia. by apply Hfirst. }
  apply umap_order_elem_of in Hq as Hin.
  destruct (final_position_resolved (joint_to_id_ me) _ j q i Hin Hj) as [q' Hq'].
  assert (q' = q) as ->.
  { destruct (final_position_Some _ _ _ _ Hq') as (j' & Hin' & Hj').
    apply umap_order_elem_of in Hin'.
    assert (j' = j) as -> by (by apply (Honly j' q')). congruence. }
  destruct (spec_updates_final (joint_to_id_ me) (umap_order updates)
              (data (dxl f)) i q Hq') as (kl & Hlast & Hkl).
  exists (copy_frame f1), kl. split; [by apply (getFrame_found _ _ k)|].
  simpl. rewrite Hdata1. split; [by apply last_index_Some | done].
Qed.

End Again.

(** ** What a load keeps and what a save writes *)

Lemma length_filter_split {A} (P : A → Prop) `{∀ x, Decision (P x)} (l : list A) :
  (length (filter (λ x, ¬ P x) l) + length (filter P l))%nat = length l.
Proof.
  induction l as [|x rest IH]; [done|].
  rewrite !filter_cons. destruct (decide (P x)) as [Hx|Hx].
  - rewrite decide_False by tauto. simpl. lia.
  - rewrite decide_True by done. simpl. lia.
Qed.

Section LoadSave.
Context `{Y : YamlCpp} `{L : StdLib}.

(** X9. A load that succeeds loses and duplicates no top-level entry: every
    entry is either among the blobs or among the frames, the joint mapping
    is the one the editor had, and [listStepNames] gives, in the order of
    the document, the names parsed from the frame-shaped entries. *)
Theorem load_keeps_every_entry fs path me me' items :
  LoadFile fs path = Value (YSeq items) →
  loadFromFile fs path me = Returns me' →
  (length (meta_blobs_ me') + length (frames_ me'))%nat = length items ∧
  length (meta_blobs_ me') = length (blob_entries items) ∧
  joint_to_id_ me' = joint_to_id_ me ∧
  Forall2 (λ item nm, ∃ f, parseFrameFromNode item = Value f ∧ name f = nm)
    (frame_entries items) (listStepNames me').
Proof.
  intros Hroot Hload.
  apply (loadFromFile_Returns fs path me items) in Hload as (frames & Hparsed & ->);
    [|done].
  rewrite listStepNames_names. simpl.
  rewrite length_fmap. apply Forall2_length in Hparsed as Hlen.
  split; [rewrite <- Hlen; apply (length_filter_split (λ item, Is_true (appearsFrame item)))|].
  split; [done|]. split; [done|].
  apply Forall2_fmap_r. eapply Forall2_impl; [exact Hparsed|].
  intros item f Hf. by exists f.
Qed.

(** X10. [saveToFile] succeeds exactly when every blob parses again and the
    path can be opened for writing; it then replaces the content stored
    under that path and touches no other file.  A blob that does not parse
    makes it throw before the file is opened, also when the path cannot be
    written; otherwise a path that cannot be written makes it throw the
    cannot-open error. *)
Theorem saveToFile_outcomes me path fs :
  (∀ fs', saveToFile me path fs = Value fs' ↔
     (path ∉ read_only fs) ∧
     ∃ nodes, expand_blobs (meta_blobs_ me) = Some nodes ∧
       fs' = mkFileSystem
               (<[path := Dump (YSeq (nodes ++ (frame_mapping <$> frames_ me)))]>
                  (contents fs))
               (read_only fs)) ∧
  (∀ fs' p, saveToFile me path fs = Value fs' → p ≠ path →
     contents fs' !! p = contents fs !! p) ∧
  (expand_blobs (meta_blobs_ me) = None →
     saveToFile me path fs = Thrown yaml_exception) ∧
  (is_Some (expand_blobs (meta_blobs_ me)) → path ∈ read_only fs →
     saveToFile me path fs =
     Thrown (runtime_error ("MotionEditor: cannot open file to write: " +:+ path))).
Proof.
  unfold saveToFile. rewrite buildYamlFromAll_closed_form.
  destruct (expand_blobs (meta_blobs_ me)) as [nodes|]; simpl.
  - case_bool_decide as Hw.
    + split; [|split; [|split]]; try done.
      intros fs'. split; [done|]. by intros [? _].
    + split; [|split; [|split]]; try done.
      * intros fs'. split.
        -- intros [= <-]. split; [done|]. by exists nodes.
        -- intros (_ & nodes' & [= <-] & ->). done.
      * intros fs' p [= <-] Hp. simpl. by rewrite lookup_insert_ne.
  - split; [|split; [|split]]; try done.
    intros fs'. split; [done|]. by intros (_ & ? & [=] & _).
Qed.

End LoadSave.

(** ** The invariant between a load and a save *)

Section Invariant.
Context `{Y : YamlCpp} `{L : StdLib} `{RT : !YamlCppRoundTrip Y}.

Lemma capacity_foldl_push_back {A} (l l' : list A) (v v' : vector A) :
  capacity v = capacity v' → length (data v) = length (data v') →
  length l = length l' →
  capacity (foldl push_back v l) = capacity (foldl push_back v' l').
Proof.
  revert l' v v'. induction l as [|x rest IH]; intros [|x' rest'] v v' Hc Hd Hl;
    simpl in *; try done.
  apply IH; [| |lia].
  - unfold push_back, needs_realloc. rewrite Hc, Hd. by case_bool_decide.
  - rewrite !data_push_back, !length_app. simpl. lia.
Qed.

(** A vector that was filled by [push_back] alone is still one after an
    element is overwritten or pushed. *)
Lemma filled_by_push_back_alter {A} (v : vector A) (g : A → A) k :
  v = foldl push_back vector_empty (data v) →
  Vector (alter g k (data v)) (capacity v)
  = foldl push_back vector_empty (alter g k (data v)).
Proof.
  intros Hv.
  assert (∀ w : vector A, w = Vector (data w) (capacity w)) as Heta by (by intros []).
  rewrite (Heta (foldl push_back vector_empty (alter g k (data v)))).
  rewrite data_foldl_push_back. simpl. f_equal.
  rewrite Hv at 1. apply capacity_foldl_push_back; [done..|].
  by rewrite length_alter.
Qed.

Lemma filled_by_push_back_push {A} (v : vector A) (x : A) :
  v = foldl push_back vector_empty (data v) →
  push_back v x = foldl push_back vector_empty (data (push_back v x)).
Proof.
  intros Hv. rewrite data_push_back, foldl_app. simpl. by rewrite <- Hv.
Qed.

Lemma apply_update_joints_ok joint_to_id strict s u s' :
  mapping_ok joint_to_id → joints_ok (e_dxl s) →
  stopped_in (apply_update joint_to_id strict s u) s' → joints_ok (e_dxl s').
Proof.
  intros Hmap [Hids Hfilled]. unfold apply_update. destruct u as [j q].
  destruct (joint_to_id !! j) as [i|] eqn:Hj.
  - destruct (id2dxl s !! i) as [p|].
    + case_bool_decide; [|by intros [[=]|[e [=]]]].
      intros [[= <-]|[e [=]]]. simpl. split.
      * simpl. apply Forall_alter; [done|]. intros dv Hdv. done.
      * by apply filled_by_push_back_alter.
    + intros [[= <-]|[e [=]]]. simpl. split.
      * rewrite data_push_back. apply Forall_app. split; [done|].
        constructor; [|done]. simpl. by apply (Hmap j).
      * by apply filled_by_push_back_push.
  - destruct strict.
    + by intros [[=]|[e [= _ <-]]].
    + by intros [[= <-]|[e [=]]].
Qed.

Lemma apply_updates_joints_ok joint_to_id strict updates s s' :
  mapping_ok joint_to_id → joints_ok (e_dxl s) →
  stopped_in (apply_updates joint_to_id strict updates s) s' → joints_ok (e_dxl s').
Proof.
  intros Hmap. revert s. induction updates as [|u rest IH]; intros s Hok; simpl.
  - by intros [[= <-]|[e [=]]].
  - destruct (apply_update joint_to_id strict s u) as [s1|e1 s1|] eqn:Hstep.
    + intros Hrest. apply (IH s1); [|done].
      apply (apply_update_joints_ok joint_to_id strict s u); [done..|]. left. done.
    + intros [[=]|[e [= _ <-]]].
      apply (apply_update_joints_ok joint_to_id strict s u); [done..|].
      right. by exists e1.
    + by intros [[=]|[e [=]]].
Qed.

Lemma editJoints_stopped_inv step_name updates strict me me' :
  editJoints step_name updates strict me = Returns me' ∨
  (∃ e, editJoints step_name updates strict me = Throws e me') →
  me' = me ∨
  ∃ k f s', first_named (frames_ me) step_name k f ∧
    stopped_in (apply_updates (joint_to_id_ me) strict (umap_order updates)
                  (start_edit f)) s' ∧
    me' = store_frame k (with_dxl f (e_dxl s')) me.
Proof.
  intros Hcall. unfold editJoints in Hcall.
  destruct (first_named_or_absent (frames_ me) step_name) as [Hno|(k0 & f0 & Hf0)].
  - left. unfold edit_in_order, findFrameIndexByName in Hcall.
    rewrite find_from_absent in Hcall by done. simpl in Hcall.
    destruct Hcall as [[=]|[e [= _ <-]]]. done.
  - right. exists k0, f0. rewrite (edit_in_order_found _ _ _ _ k0 f0 Hf0) in Hcall.
    fold (start_edit f0) in Hcall.
    destruct (apply_updates _ _ _ _) as [s1|e1 s1|]; simpl in Hcall.
    + destruct Hcall as [[= <-]|[e [=]]]. exists s1. split; [done|]. split; [by left|done].
    + destruct Hcall as [[=]|[e [= _ <-]]]. exists s1. split; [done|].
      split; [right; by exists e1 | done].
    + by destruct Hcall as [[=]|[e [=]]].
Qed.

Lemma default_mapping_ok : mapping_ok default_joint_to_id.
Proof.
  intros j i. unfold default_joint_to_id.
  rewrite !lookup_insert. repeat case_decide;
    try (intros [= <-]; unfold int_range; lia).
  all: try by rewrite lookup_empty.
Qed.

Lemma load_gives_editor_ok fs path me me1 :
  mapping_ok (joint_to_id_ me) →
  loadFromFile fs path me = Returns me1 → editor_ok me1.
Proof.
  intros Hmap Hload.
  assert (∃ items, LoadFile fs path = Value (YSeq items)) as [items Hroot].
  { unfold loadFromFile in Hload. destruct (LoadFile fs path) as [[| |items|]|]; try done.
    by exists items. }
  destruct (proj1 (loadFromFile_Returns fs path me items me1 Hroot) Hload)
    as (frames & Hparsed & Heq).
  subst me1. split; [|split]; simpl; [| |done].
  - apply Forall_forall. intros f Hin.
    apply list_elem_of_lookup in Hin as [k Hk].
    destruct (Forall2_lookup_r _ _ _ _ _ Hparsed Hk) as (item & _ & Hitem).
    by apply parse_gives_parsed_shape in Hitem.
  - exists (blob_entries items). split; [done|].
    unfold blob_entries. apply Forall_forall. intros item Hin.
    apply list_elem_of_filter in Hin as [Hno _]. by destruct (appearsFrame item).
Qed.

Lemma edit_keeps_editor_ok step_name updates strict me me' :
  editor_ok me →
  editJoints step_name updates strict me = Returns me' ∨
  (∃ e, editJoints step_name updates strict me = Throws e me') →
  editor_ok me'.
Proof.
  intros (Hframes & Hblobs & Hmap) Hcall.
  apply editJoints_stopped_inv in Hcall as [->|(k & f & s' & Hf & Hstop & ->)]; [done|].
  split; [|done]. simpl. destruct Hf as (Hk & _ & _).
  apply Forall_insert; [done|].
  pose proof (Forall_lookup_1 _ _ _ _ Hframes Hk) as (Ht & Hd & Hr & Hids & Hfilled).
  apply (apply_updates_joints_ok (joint_to_id_ me) strict _ (start_edit f)) in Hstop
    as [Hids' Hfilled']; [|done|by split].
  exact (conj Ht (conj Hd (conj Hr (conj Hids' Hfilled')))).
Qed.

Lemma reload_saved me tmp fs :
  editor_ok me → tmp ∉ read_only fs →
  ∃ fs' items, saveToFile me tmp fs = Value fs' ∧
    expand_blobs (meta_blobs_ me) = Some items ∧
    contents fs' !! tmp = Some (Dump (YSeq (items ++ (frame_mapping <$> frames_ me)))) ∧
    ∀ me2, loadFromFile fs' tmp me2 =
           Returns (mkMotionEditor (meta_blobs_ me) (frames_ me) (joint_to_id_ me2)).
Proof.
  intros (Hframes & (items & Hblobs & Hitems) & _) Hw.
  assert (expand_blobs (meta_blobs_ me) = Some items) as Hexp.
  { rewrite Hblobs. apply expand_blobs_of. }
  rewrite (saveToFile_writes me tmp fs items Hexp Hw). eexists. exists items.
  split; [done|]. split; [done|].
  simpl. rewrite lookup_insert_eq. split; [done|].
  intros me2. unfold loadFromFile, LoadFile. simpl.
  rewrite lookup_insert_eq, Load_Dump, load_items_saved by done.
  simpl. by rewrite Hblobs.
Qed.

(** X11. The invariant of an editor between a load and a save (every frame
    as a parse leaves it, every blob the dump of an entry that is not
    frame-shaped, every id of the mapping a C++ [int]) holds after every
    load that succeeds, and every call of [editJoints] that returns or
    throws keeps it. *)
Theorem editor_invariant fs path step_name updates strict me me1 me2 :
  mapping_ok (joint_to_id_ me) →
  loadFromFile fs path me = Returns me1 →
  editJoints step_name updates strict me1 = Returns me2 ∨
  (∃ e, editJoints step_name updates strict me1 = Throws e me2) →
  editor_ok me1 ∧ editor_ok me2.
Proof.
  intros Hmap Hload Hedit.
  assert (editor_ok me1) as Hok1 by (by eapply load_gives_editor_ok).
  split; [done|]. by eapply edit_keeps_editor_ok.
Qed.

(** X12. An editor that satisfies the invariant goes through a save and a
    load unchanged: saving it to a path that can be written succeeds, and
    loading that file yields the same frames (fields, joints, order) and
    the same blobs, whatever the editor that loads held before. *)
Theorem save_then_load_restores me tmp fs :
  editor_ok me → tmp ∉ read_only fs →
  ∃ fs', saveToFile me tmp fs = Value fs' ∧
    ∀ me2, loadFromFile fs' tmp me2 =
           Returns (mkMotionEditor (meta_blobs_ me) (frames_ me) (joint_to_id_ me2)).
Proof.
  intros Hok Hw.
  destruct (reload_saved me tmp fs Hok Hw) as (fs' & items & Hsave & _ & _ & Hload).
  by exists fs'.
Qed.

(** X13. What [saveToFile] writes is a fixed point: when the file a save
    wrote is loaded and saved again, the text written is the same. *)
Theorem save_load_save_same_text me tmp fs fs' me2 me3 path2 fs2 :
  editor_ok me → tmp ∉ read_only fs →
  saveToFile me tmp fs = Value fs' →
  loadFromFile fs' tmp me2 = Returns me3 →
  path2 ∉ read_only fs2 →
  ∃ fs3, saveToFile me3 path2 fs2 = Value fs3 ∧
    contents fs3 !! path2 = contents fs' !! tmp.
Proof.
  intros Hok Hw Hsave Hload Hw2.
  destruct (reload_saved me tmp fs Hok Hw) as (fs1 & items & Hsave1 & Hexp & Htext1 & Hload1).
  assert (fs1 = fs') as -> by congruence.
  rewrite Hload1 in Hload. injection Hload as <-.
  rewrite (saveToFile_writes
             (mkMotionEditor (meta_blobs_ me) (frames_ me) (joint_to_id_ me2))
             path2 fs2 items Hexp Hw2).
  eexists. split; [done|].
  simpl. by rewrite lookup_insert_eq, Htext1.
Qed.

(** X14. Load, edit, save, load: after a load that succeeds and a call of
    [editJoints] that returns, a save to a path that can be written
    succeeds, and a load of that file yields the frames and blobs of the
    edited editor. *)
Theorem load_edit_save_load fs path step_name updates strict tmp me me1 me2 :
  mapping_ok (joint_to_id_ me) →
  loadFromFile fs path me = Returns me1 →
  editJoints step_name updates strict me1 = Returns me2 →
  tmp ∉ read_only fs →
  ∃ fs', saveToFile me2 tmp fs = Value fs' ∧
    ∀ me3, ∃ me4, loadFromFile fs' tmp me3 = Returns me4 ∧
      frames_ me4 = frames_ me2 ∧ meta_blobs_ me4 = meta_blobs_ me2 ∧
      meta_blobs_ me2 = meta_blobs_ me1.
Proof.
  intros Hmap Hload Hedit Hw.
  assert (editor_ok me1) as Hok1 by (by eapply load_gives_editor_ok).
  assert (editor_ok me2) as Hok2 by (eapply edit_keeps_editor_ok; [exact Hok1 | by left]).
  destruct (reload_saved me2 tmp fs Hok2 Hw) as (fs' & items & Hsave & _ & _ & Hreload).
  exists fs'. split; [done|]. intros me3. eexists. split; [apply Hreload|].
  simpl. split; [done|]. split; [done|].
  destruct (editJoints_stopped_inv step_name updates strict me1 me2 (or_introl Hedit))
    as [->|(k & f & s' & _ & _ & ->)]; done.
Qed.

End Invariant.

(** ** Calls that cannot meet a stale pointer *)

Section SingleUpdate.
Context `{L : StdLib}.

Lemma apply_updates_unresolved joint_to_id strict updates s :
  Forall (λ u, ¬ resolvable joint_to_id u) updates →
  apply_updates joint_to_id strict updates s ≠ Dangling.
Proof.
  revert s. induction updates as [|[j q] rest IH]; intros s Hall; simpl; [done|].
  apply Forall_cons in Hall as [Hu Hrest].
  destruct (joint_to_id !! j) as [i|] eqn:Hj.
  - destruct Hu. by exists i.
  - destruct strict; [done | by apply IH].
Qed.

Lemma apply_updates_one_resolved joint_to_id strict updates s :
  (∀ i p, id2dxl s !! i = Some p → buffer p = e_buffer s) →
  NoDup updates.*1 →
  (∀ u1 u2, u1 ∈ updates → u2 ∈ updates →
     resolvable joint_to_id u1 → resolvable joint_to_id u2 → u1.1 = u2.1) →
  apply_updates joint_to_id strict updates s ≠ Dangling.
Proof.
  revert s. induction updates as [|[j q] rest IH]; intros s Hptr Hnd Hone; simpl; [done|].
  apply NoDup_cons in Hnd as [Hj Hnd]. simpl in Hj.
  assert (∀ u1 u2, u1 ∈ rest → u2 ∈ rest →
     resolvable joint_to_id u1 → resolvable joint_to_id u2 → u1.1 = u2.1) as Hone'.
  { intros u1 u2 H1 H2. apply Hone; by right. }
  destruct (joint_to_id !! j) as [i|] eqn:Hi.
  - assert (Forall (λ u, ¬ resolvable joint_to_id u) rest) as Hrest.
    { apply Forall_forall. intros u Hu Hres. apply Hj.
      assert (j = u.1) as ->; [|by apply list_elem_of_fmap_2].
      apply (Hone (j, q) u); [left | by right | by exists i | done]. }
    destruct (id2dxl s !! i) as [p|] eqn:Hp.
    + rewrite bool_decide_eq_true_2 by (by apply (Hptr i)).
      by apply apply_updates_unresolved.
    + by apply apply_updates_unresolved.
  - destruct strict; [done|]. by apply IH.
Qed.

Lemma start_edit_current f i p :
  id2dxl (start_edit f) !! i = Some p → buffer p = e_buffer (start_edit f).
Proof.
  simpl. apply index_dxl_buffer. intros ? ?. by rewrite lookup_empty.
Qed.

Lemma umap_order_one_resolved joint_to_id (updates : gmap string float) :
  (∀ j1 j2, is_Some (updates !! j1) → is_Some (updates !! j2) →
     is_Some (joint_to_id !! j1) → is_Some (joint_to_id !! j2) → j1 = j2) →
  ∀ u1 u2, u1 ∈ umap_order updates → u2 ∈ umap_order updates →
     resolvable joint_to_id u1 → resolvable joint_to_id u2 → u1.1 = u2.1.
Proof.
  intros Hone [j1 q1] [j2 q2] H1 H2 Hr1 Hr2. simpl.
  apply umap_order_elem_of in H1, H2. apply Hone; by eauto.
Qed.

(** X15. A call of [editJoints] in which at most one name resolves to an id
    never has undefined behaviour, whatever the frame, the strict flag and
    the order in which the map is visited: the only write that can follow
    a reallocation goes to the element just appended. *)
Theorem editJoints_one_resolved_name_defined step_name updates strict me :
  (∀ j1 j2, is_Some (updates !! j1) → is_Some (updates !! j2) →
     is_Some (joint_to_id_ me !! j1) → is_Some (joint_to_id_ me !! j2) → j1 = j2) →
  editJoints step_name updates strict me ≠ UndefinedBehaviour.
Proof.
  intros Hone.
  destruct (first_named_or_absent (frames_ me) step_name) as [Hno|(k & f & Hf)].
  - unfold editJoints, edit_in_order, findFrameIndexByName.
    by rewrite find_from_absent.
  - unfold editJoints. rewrite (edit_in_order_found _ _ _ _ k f Hf).
    fold (start_edit f).
    pose proof (apply_updates_one_resolved (joint_to_id_ me) strict (umap_order updates)
                  (start_edit f) (start_edit_current f) (umap_order_NoDup updates)
                  (umap_order_one_resolved _ _ Hone)) as Hdef.
    by destruct (apply_updates _ _ _ _).
Qed.

Lemma final_position_only joint_to_id (updates : gmap string float) j q i :
  updates !! j = Some q → joint_to_id !! j = Some i →
  (∀ j' q', updates !! j' = Some q' → joint_to_id !! j' = Some i → j' = j) →
  final_position joint_to_id (umap_order updates) i = Some q.
Proof.
  intros Hq Hj Honly. apply umap_order_elem_of in Hq as Hin.
  destruct (final_position_resolved joint_to_id _ j q i Hin Hj) as [q' Hq'].
  rewrite Hq'. f_equal.
  destruct (final_position_Some _ _ _ _ Hq') as (j' & Hin' & Hj').
  apply umap_order_elem_of in Hin'.
  assert (j' = j) as -> by (by apply (Honly j' q')). congruence.
Qed.

End SingleUpdate.

(** ** The arm and torso subset, continued *)

Section FourArm.
Context `{L : StdLib}.

Lemma whitelisted_lookup (updates : gmap string float) j :
  whitelisted updates !! j = if decide (j ∈ whitelist) then updates !! j else None.
Proof.
  unfold whitelisted. rewrite map_lookup_filter.
  destruct (updates !! j) as [q|]; simpl.
  - destruct (decide (j ∈ whitelist)).
    + by rewrite option_guard_True.
    + by rewrite option_guard_False.
  - by destruct (decide _).
Qed.

Lemma editFourArmJoints_unfold step_name updates me :
  editFourArmJoints step_name updates me =
  if decide (whitelisted updates = ∅) then Returns me
  else editJoints step_name (whitelisted updates) false me.
Proof.
  unfold editFourArmJoints. cbv zeta. rewrite puts_whitelisted.
  destruct (decide (whitelisted updates = ∅)) as [He|Hne].
  - by rewrite bool_decide_eq_true_2.
  - by rewrite bool_decide_eq_false_2.
Qed.

(** X16. [editFourArmJoints] looks at the six whitelisted names only: two
    update maps that agree on them give the same result.  The only
    exception it throws is the step-not-found error of [editJoints], and
    it throws it only when the updates hold a whitelisted name and no
    frame has the given name; the editor is then as it was. *)
Theorem editFourArmJoints_outcomes step_name updates me :
  (∀ updates', (∀ j, j ∈ whitelist → updates !! j = updates' !! j) →
     editFourArmJoints step_name updates me = editFourArmJoints step_name updates' me) ∧
  (∀ e me', editFourArmJoints step_name updates me = Throws e me' →
     e = runtime_error ("MotionEditor: step not found: " +:+ step_name) ∧ me' = me ∧
     (∀ f, f ∈ frames_ me → name f ≠ step_name) ∧
     ∃ j, j ∈ whitelist ∧ is_Some (updates !! j)).
Proof.
  split.
  - intros updates' Hagree. rewrite !editFourArmJoints_unfold.
    assert (whitelisted updates = whitelisted updates') as ->; [|done].
    apply map_eq. intros j. rewrite !whitelisted_lookup.
    destruct (decide (j ∈ whitelist)); [by apply Hagree | done].
  - intros e me'. rewrite editFourArmJoints_unfold.
    destruct (decide (whitelisted updates = ∅)) as [|Hne]; [done|].
    intros Hthrow.
    assert (∃ j, j ∈ whitelist ∧ is_Some (updates !! j)) as Hsome.
    { apply map_choose in Hne as (j & q & Hj). rewrite whitelisted_lookup in Hj.
      exists j. destruct (decide (j ∈ whitelist)); [|done]. split; [done | by exists q]. }
    destruct (first_named_or_absent (frames_ me) step_name) as [Hno|(k & f & Hf)].
    + unfold editJoints, edit_in_order, findFrameIndexByName in Hthrow.
      rewrite find_from_absent in Hthrow by done. simpl in Hthrow.
      injection Hthrow as <- <-. done.
    + unfold editJoints in Hthrow. rewrite (edit_in_order_found _ _ _ _ k f Hf) in Hthrow.
      destruct (apply_updates _ _ _ _) as [s1|e1 s1|] eqn:Hrun; simpl in Hthrow; [done| |done].
      by apply apply_updates_lenient_no_raise in Hrun.
Qed.

End FourArm.

(** ** The caller *)

Section Main.
Context `{Y : YamlCpp} `{L : StdLib} `{RT : !YamlCppRoundTrip Y}.

Lemma getFrame_in_range me step_name : getFrame me step_name ≠ out_of_range.
Proof.
  destruct (first_named_or_absent (frames_ me) step_name) as [Hno|(k & f & Hf)].
  - by rewrite getFrame_absent.
  - by rewrite (getFrame_found _ _ k f).
Qed.

Lemma loadFromFile_defined fs path me : loadFromFile fs path me ≠ UndefinedBehaviour.
Proof.
  unfold loadFromFile. destruct (LoadFile fs path) as [[| |items|]|]; try done.
  apply load_items_defined.
Qed.

Lemma loadFromFile_joint_to_id fs path me me1 :
  loadFromFile fs path me = Returns me1 → joint_to_id_ me1 = joint_to_id_ me.
Proof.
  intros Hload.
  assert (∃ items, LoadFile fs path = Value (YSeq items)) as [items Hroot].
  { unfold loadFromFile in Hload. destruct (LoadFile fs path) as [[| |items|]|]; try done.
    by exists items. }
  destruct (proj1 (loadFromFile_Returns fs path me items me1 Hroot) Hload)
    as (frames & _ & Heq).
  by subst me1.
Qed.

Lemma q2_one_resolved j1 j2 :
  is_Some (q2 !! j1) → is_Some (q2 !! j2) →
  is_Some (default_joint_to_id !! j1) → is_Some (default_joint_to_id !! j2) → j1 = j2.
Proof.
  assert (∀ j, is_Some (q2 !! j) → is_Some (default_joint_to_id !! j) → j = "rotate_1")
    as Hone.
  { intros j. unfold q2. rewrite !lookup_insert.
    destruct (decide ("rotate_7" = j)) as [<-|_]; [intros _ [i Hi]; by vm_compute in Hi|].
    destruct (decide ("rotate_1" = j)) as [<-|_]; [done|].
    rewrite lookup_empty. by intros [? ?]. }
  intros H1 H2 H3 H4. by rewrite (Hone j1), (Hone j2).
Qed.

(** X17. [main] of [test.cpp], for every motion file and whatever the file
    system holds.  Either it exits with 0: then only the motion file was
    rewritten, and loading it again shows a frame ["2"] whose last joint
    with id 1 stands at 0.33 (the update for [rotate_7], a name the default
    mapping does not have, is dropped).  Or it exits with 1 and leaves every
    file as it was: the load threw, or no frame is named ["2"], or the
    motion file cannot be written.  Its behaviour is never undefined. *)
Theorem main_outcomes yaml_path fs :
  (∃ fs', main yaml_path fs = Exit 0 fs' ∧
     read_only fs' = read_only fs ∧
     (∀ p, p ≠ yaml_path → contents fs' !! p = contents fs !! p) ∧
     ∀ me3, ∃ me4 g kl, loadFromFile fs' yaml_path me3 = Returns me4 ∧
       getFrame me4 "2" = has_value g ∧
       is_last (data (dxl g)) 1 kl ∧
       data (dxl g) !! kl = Some (mkDxlValue 1 0.33%float))
  ∨ (main yaml_path fs = Exit 1 fs ∧
     ((∃ e me1, loadFromFile fs yaml_path MotionEditor_default = Throws e me1) ∨
      (∃ me1, loadFromFile fs yaml_path MotionEditor_default = Returns me1 ∧
              ∀ f, f ∈ frames_ me1 → name f ≠ "2") ∨
      yaml_path ∈ read_only fs)).
Proof.
  unfold main.
  destruct (loadFromFile fs yaml_path MotionEditor_default) as [me1|e me1|] eqn:Hload.
  3: { by apply loadFromFile_defined in Hload. }
  2: { right. split; [done|]. left. by exists e, me1. }
  assert (editor_ok me1) as Hok1.
  { eapply load_gives_editor_ok; [|exact Hload]. apply default_mapping_ok. }
  assert (joint_to_id_ me1 = default_joint_to_id) as Hmap.
  { by apply loadFromFile_joint_to_id in Hload. }
  assert (∀ j1 j2, is_Some (q2 !! j1) → is_Some (q2 !! j2) →
            is_Some (joint_to_id_ me1 !! j1) → is_Some (joint_to_id_ me1 !! j2) → j1 = j2)
    as Hone by (rewrite Hmap; apply q2_one_resolved).
  assert (match listStepNames me1 with [] => nullopt | front :: _ => getFrame me1 front end
          ≠ out_of_range) as Hprinted.
  { destruct (listStepNames me1); [done | apply getFrame_in_range]. }
  destruct (match listStepNames me1 with [] => nullopt | front :: _ => getFrame me1 front end)
    as [|g0|]; [| |done].
  all: clear Hprinted.
  all: destruct (first_named_or_absent (frames_ me1) "2") as [Hno|(k & f & Hf)].
  1,3: right; unfold editJoints, edit_in_order, findFrameIndexByName;
       rewrite find_from_absent by done; simpl; split; [done|];
       right; left; by exists me1.
  all: destruct (editJoints "2" q2 false me1) as [me2|e2 me2|] eqn:Hedit.
  2,3,5,6: exfalso; unfold editJoints in Hedit;
       rewrite (edit_in_order_found _ _ _ _ k f Hf) in Hedit;
       fold (start_edit f) in Hedit;
       pose proof (apply_updates_one_resolved (joint_to_id_ me1) false (umap_order q2)
                     (start_edit f) (start_edit_current f) (umap_order_NoDup q2)
                     (umap_order_one_resolved _ _ Hone)) as Hdef;
       destruct (apply_updates _ _ _ _) as [s1|e1 s1|] eqn:Hrun; simpl in Hedit; try done;
       by apply apply_updates_lenient_no_raise in Hrun.
  all: assert (editor_ok me2) as Hok2
         by (eapply edit_keeps_editor_ok; [exact Hok1 | left; exact Hedit]).
  all: destruct (decide (yaml_path ∈ read_only fs)) as [Hro|Hw].
  1,3: right; destruct Hok2 as (_ & (items & Hblobs & _) & _);
       unfold saveToFile; rewrite buildYamlFromAll_closed_form, Hblobs, expand_blobs_of;
       simpl; rewrite bool_decide_eq_true_2 by done; split; [done|]; by right; right.
  all: left.
  all: destruct (reload_saved me2 yaml_path fs Hok2 Hw)
         as (fs' & items & Hsave & Hexp & _ & Hreload).
  all: rewrite (saveToFile_writes me2 yaml_path fs items Hexp Hw) in Hsave |- *.
  all: injection Hsave as <-.
  all: eexists; split; [done|]; split; [done|]; split;
         [intros p Hp; simpl; by rewrite lookup_insert_ne|].
  all: intros me3; specialize (Hreload me3).
  all: destruct (editJoints_Returns_inv _ _ _ _ _ _ _ Hf Hedit)
         as (s1 & Hrun1 & Hdata1 & -> & Hk1).
  all: assert (final_position (joint_to_id_ me1) (umap_order q2) 1 = Some 0.33%float) as Hfin
         by (apply (final_position_only _ _ "rotate_1");
             [done | by rewrite Hmap | rewrite Hmap; intros j' q' Hq' Hj';
               apply q2_one_resolved; [by exists q' | by eexists | by eexists | by eexists]]).
  all: destruct (spec_updates_final (joint_to_id_ me1) (umap_order q2)
                   (data (dxl f)) 1 _ Hfin) as (kl & Hlast & Hkl).
  all: eexists _, (copy_frame (with_dxl f (e_dxl s1))), kl; split; [exact Hreload|].
  all: split;
         [apply (getFrame_found _ _ k); simpl;
          destruct Hf as (Hk & Hname & Hfirst); split;
            [by apply list_lookup_insert_eq, lookup_lt_Some with f|];
          split; [done|];
          intros k' g Hlt; rewrite list_lookup_insert_ne by lia; by apply Hfirst
         |simpl; rewrite Hdata1; split; [by apply last_index_Some | done]].
Qed.

End Main.

(** ** Further runs on the reference instances *)

Module MoreRuns.
Import Samples.

Lemma first_named_f1 : first_named (frames_ loaded) "f1" 0 f1.
Proof. split; [done|]. split; [done|]. intros k' g Hlt. lia. Qed.

Lemma edit_one_update : editJoints "f1" one_update false loaded = Returns edited.
Proof. vm_compute. reflexivity. Qed.

Lemma load_good_items :
  LoadFile (file_of good_document) "motion.yaml" = Value (YSeq good_items).
Proof. vm_compute. reflexivity. Qed.

Lemma load_loaded :
  loadFromFile (file_of good_document) "motion.yaml" MotionEditor_default = Returns loaded.
Proof. vm_compute. reflexivity. Qed.

Lemma loaded_ok : editor_ok loaded.
Proof.
  apply (load_gives_editor_ok (file_of good_document) "motion.yaml" MotionEditor_default).
  - apply default_mapping_ok.
  - exact load_loaded.
Qed.

Lemma edited_ok : editor_ok edited.
Proof.
  apply (edit_keeps_editor_ok "f1" one_update false loaded); [exact loaded_ok|].
  left. exact edit_one_update.
Qed.

Lemma copy_writable : "copy.yaml" ∉ read_only (file_of good_document).
Proof. simpl. apply not_elem_of_empty. Qed.

Lemma editJoints_changes_one_frame_witness :
  meta_blobs_ edited = meta_blobs_ loaded ∧
  joint_to_id_ edited = joint_to_id_ loaded ∧
  listStepNames edited = listStepNames loaded ∧
  length (frames_ edited) = length (frames_ loaded).
Proof.
  destruct (editJoints_changes_one_frame "f1" one_update false loaded edited
              (or_introl edit_one_update)) as (Hb & Hm & Hn & Hl & _).
  split; [exact Hb|]. split; [exact Hm|]. split; [exact Hn | exact Hl].
Defined.

Lemma editJoints_nothing_to_apply_witness :
  editJoints "f1" {[ "rotate_7" := 0.125%float ]} false loaded = Returns loaded.
Proof.
  destruct (editJoints_nothing_to_apply "f1" {[ "rotate_7" := 0.125%float ]} loaded 0 f1
              first_named_f1) as [Hsame _].
  - intros j q Hj. apply lookup_singleton_Some in Hj as [<- _]. vm_compute. reflexivity.
  - exact Hsame.
Defined.

Lemma editJoints_applies_updates_in_order_witness :
  ∃ f', frames_ edited !! 0%nat = Some f' ∧
    data (dxl f') =
      foldl (spec_update (joint_to_id_ loaded)) (data (dxl f1)) (umap_order one_update).
Proof.
  destruct (editJoints_applies_updates_in_order "f1" one_update false loaded 0 f1
              first_named_f1) as [Hret _].
  exact (Hret edited edit_one_update).
Defined.

Lemma editJoints_joint_count_witness :
  ∃ f', frames_ edited !! 0%nat = Some f' ∧
    length (data (dxl f')) =
    (length (data (dxl f1)) +
     size (list_to_set (resolved_ids (joint_to_id_ loaded) (umap_order one_update))
             ∖ list_to_set (joint_ids (data (dxl f1))) : gset Z))%nat.
Proof.
  exact (editJoints_joint_count "f1" one_update false loaded edited 0 f1
           first_named_f1 edit_one_update).
Defined.

Lemma editJoints_idempotent_witness :
  editJoints "f1" one_update false edited = Returns edited.
Proof.
  exact (editJoints_idempotent "f1" one_update false loaded edited edit_one_update).
Defined.

Lemma editJoints_then_getFrame_witness :
  ∃ g kl, getFrame edited "f1" = has_value g ∧
    is_last (data (dxl g)) 3 kl ∧ data (dxl g) !! kl = Some (mkDxlValue 3 0.125).
Proof.
  apply (editJoints_then_getFrame "f1" one_update false loaded edited "rotate_3"
           0.125%float 3 edit_one_update).
  - vm_compute. reflexivity.
  - vm_compute. reflexivity.
  - intros j' q' Hj' _. unfold one_update in Hj'.
    apply lookup_singleton_Some in Hj' as [Hj' _]. by symmetry.
Defined.

Lemma load_keeps_every_entry_witness :
  (length (meta_blobs_ loaded) + length (frames_ loaded))%nat = length good_items ∧
  length (meta_blobs_ loaded) = length (blob_entries good_items) ∧
  joint_to_id_ loaded = joint_to_id_ MotionEditor_default ∧
  Forall2 (λ item nm, ∃ f, parseFrameFromNode item = Value f ∧ name f = nm)
    (frame_entries good_items) (listStepNames loaded).
Proof.
  exact (load_keeps_every_entry (file_of good_document) "motion.yaml" MotionEditor_default
           loaded good_items load_good_items load_loaded).
Defined.

Lemma editor_invariant_witness : editor_ok loaded ∧ editor_ok edited.
Proof.
  exact (editor_invariant (file_of good_document) "motion.yaml" "f1" one_update false
           MotionEditor_default loaded edited default_mapping_ok load_loaded
           (or_introl edit_one_update)).
Defined.

Lemma save_then_load_restores_witness :
  ∃ fs', saveToFile edited "copy.yaml" (file_of good_document) = Value fs' ∧
    ∀ me2, loadFromFile fs' "copy.yaml" me2 =
           Returns (mkMotionEditor (meta_blobs_ edited) (frames_ edited) (joint_to_id_ me2)).
Proof.
  exact (save_then_load_restores edited "copy.yaml" (file_of good_document)
           edited_ok copy_writable).
Defined.

Lemma save_load_save_same_text_witness :
  ∃ fs' me3 fs3,
    saveToFile edited "copy.yaml" (file_of good_document) = Value fs' ∧
    loadFromFile fs' "copy.yaml" MotionEditor_default = Returns me3 ∧
    saveToFile me3 "copy.yaml" (file_of good_document) = Value fs3 ∧
    contents fs3 !! "copy.yaml" = contents fs' !! "copy.yaml".
Proof.
  destruct (reload_saved edited "copy.yaml" (file_of good_document) edited_ok copy_writable)
    as (fs' & items & Hsave & _ & _ & Hload).
  destruct (save_load_save_same_text edited "copy.yaml" (file_of good_document) fs'
              MotionEditor_default _ "copy.yaml" (file_of good_document)
              edited_ok copy_writable Hsave (Hload MotionEditor_default) copy_writable)
    as (fs3 & Hagain & Htext).
  exists fs'. eexists. exists fs3.
  split; [exact Hsave|]. split; [exact (Hload MotionEditor_default)|].
  split; [exact Hagain | exact Htext].
Defined.

Lemma load_edit_save_load_witness :
  ∃ fs', saveToFile edited "copy.yaml" (file_of good_document) = Value fs' ∧
    ∀ me3, ∃ me4, loadFromFile fs' "copy.yaml" me3 = Returns me4 ∧
      frames_ me4 = frames_ edited ∧ meta_blobs_ me4 = meta_blobs_ edited ∧
      meta_blobs_ edited = meta_blobs_ loaded.
Proof.
  exact (load_edit_save_load (file_of good_document) "motion.yaml" "f1" one_update false
           "copy.yaml" MotionEditor_default loaded edited default_mapping_ok load_loaded
           edit_one_update copy_writable).
Defined.

Lemma editJoints_one_resolved_name_defined_witness :
  editJoints "f1" q2 true loaded ≠ UndefinedBehaviour.
Proof.
  exact (editJoints_one_resolved_name_defined "f1" q2 true loaded q2_one_resolved).
Defined.

Lemma main_outcomes_witness :
  ∃ fs', main "motion.yaml" (file_of test_motion) = Exit 0 fs' ∧
    ∀ me3, ∃ me4 g kl, loadFromFile fs' "motion.yaml" me3 = Returns me4 ∧
      getFrame me4 "2" = has_value g ∧
      is_last (data (dxl g)) 1 kl ∧
      data (dxl g) !! kl = Some (mkDxlValue 1 0.33%float).
Proof.
  destruct (main_outcomes "motion.yaml" (file_of test_motion))
    as [(fs' & Hexit & _ & _ & Hreload)|[Hexit _]].
  - exists fs'. split; [exact Hexit | exact Hreload].
  - exfalso. vm_compute in Hexit. discriminate Hexit.
Defined.

End MoreRuns.
